(** * Redline diff pipeline: chunk computation and its textual projections

    A shallow embedding of [utils/diffUtils] ([calculateDiffs],
    [getCleanText], [getRedlineHtml]), of the chunk data model of [types],
    of the wrappers [improveText] and [explainChanges] of
    [services/geminiService], and of the text panes of [App] with their
    handlers.

    JavaScript strings are embedded as [string]; a character stands for one
    code unit in the range 0..255.  [Math.random] is an explicit source of
    draws that is threaded through [calculateDiffs]; the asynchronous
    remote call of [improveText] is a node of a small effect tree. *)

From Stdlib Require Import String Ascii List Bool Arith Lia QArith.
Import ListNotations.

Local Open Scope string_scope.
Local Open Scope list_scope.
Local Open Scope nat_scope.

(* ================================================================== *)
(** ** JavaScript string primitives used by the sources *)

(** [Array.prototype.join(sep)] on an array of strings. *)
Definition join (sep : string) (parts : list string) : string :=
  String.concat sep parts.

(** [s.replace(/c/g, r)] for a one-character pattern [c] and a replacement
    text [r] without [$] patterns: every occurrence of [c] becomes [r]. *)
Fixpoint replaceAll (c : ascii) (r : string) (s : string) : string :=
  match s with
  | EmptyString => EmptyString
  | String a rest =>
      if Ascii.eqb a c then r ++ replaceAll c r rest
      else String a (replaceAll c r rest)
  end.

(** [s.substr(start, len)] for non-negative arguments. *)
Definition substr (start len : nat) (s : string) : string :=
  substring start len s.

(** The code units below 256 that ECMAScript counts as white space or line
    terminator: TAB, LF, VT, FF, CR, SPACE and NBSP. *)
Definition isWhiteSpace (c : ascii) : bool :=
  let n := nat_of_ascii c in
  ((9 <=? n) && (n <=? 13)) || (n =? 32) || (n =? 160).

Fixpoint trimStart (s : string) : string :=
  match s with
  | EmptyString => EmptyString
  | String c rest => if isWhiteSpace c then trimStart rest else s
  end.

Fixpoint trimEnd (s : string) : string :=
  match s with
  | EmptyString => EmptyString
  | String c rest =>
      match trimEnd rest with
      | EmptyString => if isWhiteSpace c then EmptyString else String c EmptyString
      | t => String c t
      end
  end.

(** [String.prototype.trim]. *)
Definition trim (s : string) : string := trimEnd (trimStart s).

Definition newline : ascii := ascii_of_nat 10.
Definition dquote : string := String (ascii_of_nat 34) EmptyString.

(* ================================================================== *)
(** ** Data model ([types]) *)

Inductive ChangeType : Type := added | removed | unchanged.

Record DiffChunk : Type := mkDiffChunk {
  id : string;
  value : string;
  type : ChangeType;
  originalIndex : nat
}.

Definition ChangeType_eqb (a b : ChangeType) : bool :=
  match a, b with
  | added, added | removed, removed | unchanged, unchanged => true
  | _, _ => false
  end.

(* ================================================================== *)
(** ** The word-diff library *)

Module Diff.

(** One change object of the library's result: [value] with the optional
    flags [added] and [removed] read for truthiness. *)
Record Change : Type := mkChange {
  value : string;
  added : bool;
  removed : bool
}.

Inductive Op : Type := Keep | Ins | Del.

Definition Op_eqb (a b : Op) : bool :=
  match a, b with
  | Keep, Keep | Ins, Ins | Del, Del => true
  | _, _ => false
  end.

(** Modelled from the spec: the tokenizer of the third-party word-diff
    library, which is not part of the sources.  Token boundaries occur at
    white-space transitions and tokens include their trailing white space:
    a boundary lies wherever white space is followed by another character,
    so a token is a word with the white space after it (white space that
    leads the text is a token too), and the tokens concatenate back to the
    input. *)
Fixpoint tokenize (s : string) : list string :=
  match s with
  | EmptyString => []
  | String c rest =>
      match tokenize rest with
      | String d t :: ts =>
          if isWhiteSpace c && negb (isWhiteSpace d)
          then String c EmptyString :: String d t :: ts
          else String c (String d t) :: ts
      | other => String c EmptyString :: other
      end
  end.

Definition keeps (script : list (Op * string)) : nat :=
  List.length (filter (fun e => Op_eqb (fst e) Keep) script).

(** Modelled from the spec: the alignment of the third-party word-diff
    library.  A longest-common-subsequence alignment of the two token
    sequences as a script of keep, insert and delete operations; where a
    deletion and an insertion keep equally many tokens the deletion comes
    first (removed before added). *)
Fixpoint align (xs : list string) : list string -> list (Op * string) :=
  match xs with
  | [] => fun ys => map (pair Ins) ys
  | x :: xs' =>
      fix inner (ys : list string) : list (Op * string) :=
        match ys with
        | [] => map (pair Del) (x :: xs')
        | y :: ys' =>
            if String.eqb x y then (Keep, x) :: align xs' ys'
            else
              let d := align xs' (y :: ys') in
              let i := inner ys' in
              if keeps i <=? keeps d then (Del, x) :: d else (Ins, y) :: i
        end
  end.

Definition changeOf (o : Op) (v : string) : Change :=
  match o with
  | Keep => mkChange v false false
  | Ins => mkChange v true false
  | Del => mkChange v false true
  end.

Definition opOf (c : Change) : Op :=
  if removed c then Del else if added c then Ins else Keep.

(** Modelled from the spec: consecutive tokens of the same operation are
    coalesced into a single change object. *)
Fixpoint coalesce (script : list (Op * string)) : list Change :=
  match script with
  | [] => []
  | (o, t) :: rest =>
      match coalesce rest with
      | c :: cs =>
          if Op_eqb o (opOf c) then changeOf o (t ++ value c) :: cs
          else changeOf o t :: c :: cs
      | [] => [changeOf o t]
      end
  end.

(** Modelled from the spec: [Diff.diffWords] of the third-party word-diff
    library, which is not part of the sources: tokenize both texts, align
    the token sequences, coalesce runs. *)
Definition diffWords (oldStr newStr : string) : list Change :=
  coalesce (align (tokenize oldStr) (tokenize newStr)).

End Diff.

(* ================================================================== *)
(** ** [utils/diffUtils] *)

(** The source of randomness: [rng k] is the text of
    [Math.random().toString(36)] at the [k]-th next call. *)
Definition Rng : Type := nat -> string.

(** [generateId]: one draw is consumed. *)
Definition generateId (rng : Rng) : string * Rng :=
  (substr 2 9 (rng 0), fun k => rng (S k)).

(** The callback of [rawDiffs.map] in [calculateDiffs]. *)
Definition chunkOf (part : Diff.Change) (index : nat) (rng : Rng)
  : DiffChunk * Rng :=
  let type0 := unchanged in
  let type1 := if Diff.added part then added else type0 in
  let type2 := if Diff.removed part then removed else type1 in
  let (i, rng') := generateId rng in
  (mkDiffChunk i (Diff.value part) type2 index, rng').

(** [rawDiffs.map((part, index) => ...)], starting at position [index]. *)
Fixpoint mapParts (parts : list Diff.Change) (index : nat) (rng : Rng)
  : list DiffChunk * Rng :=
  match parts with
  | [] => ([], rng)
  | part :: rest =>
      let (chunk, rng1) := chunkOf part index rng in
      let (chunks, rng2) := mapParts rest (S index) rng1 in
      (chunk :: chunks, rng2)
  end.

(** [calculateDiffs], over the library function it calls. *)
Definition calculateDiffs (diffWords : string -> string -> list Diff.Change)
  (rng : Rng) (original revised : string) : list DiffChunk * Rng :=
  let rawDiffs := diffWords original revised in
  mapParts rawDiffs 0 rng.

(** [getCleanText]: removed chunks are omitted. *)
Definition getCleanText (chunks : list DiffChunk) : string :=
  join "" (map (fun chunk =>
    match type chunk with
    | unchanged => value chunk
    | added => value chunk
    | removed => ""
    end) chunks).

(** The constant [text] of the callback of [getRedlineHtml]: the four
    replacements on [chunk.value], in the order of the source. *)
Definition escapeText (v : string) : string :=
  replaceAll newline "<br>"
    (replaceAll ">" "&gt;"
      (replaceAll "<" "&lt;"
        (replaceAll "&" "&amp;" v))).

(** The opening tags of the two styled containers. *)
Definition addedOpen : string :=
  "<span style=" ++ dquote ++
  "background-color: #dcfce7; color: #166534; text-decoration: underline;"
  ++ dquote ++ ">".

Definition removedOpen : string :=
  "<span style=" ++ dquote ++
  "background-color: #fee2e2; color: #991b1b; text-decoration: line-through;"
  ++ dquote ++ ">".

(** The callback of [chunks.map] in [getRedlineHtml]. *)
Definition renderChunk (chunk : DiffChunk) : string :=
  let text := escapeText (value chunk) in
  match type chunk with
  | unchanged => "<span>" ++ text ++ "</span>"
  | added => addedOpen ++ text ++ "</span>"
  | removed => removedOpen ++ text ++ "</span>"
  end.

Definition getRedlineHtml (chunks : list DiffChunk) : string :=
  join "" (map renderChunk chunks).

(** The chunks of one diff computation with the library model. *)
Definition diffChunks (rng : Rng) (original revised : string) : list DiffChunk :=
  fst (calculateDiffs Diff.diffWords rng original revised).

(** A source whose draws all render alike. *)
Definition rngConst (s : string) : Rng := fun _ => s.

(* ================================================================== *)
(** ** [services/geminiService] *)

Module GeminiService.

(** What a rejected promise carries. *)
Definition Error : Type := string.

Record GenerateContentParameters : Type := mkParameters {
  model : string;
  contents : string;
  temperature : Q
}.

(** [response.text] is a string or [undefined]. *)
Record GenerateContentResponse : Type := mkResponse {
  response_text : option string
}.

(** How the promise of [ai.models.generateContent] settles. *)
Inductive Settled : Type :=
| Fulfilled (response : GenerateContentResponse)
| Rejected (error : Error).

(** An asynchronous computation: it returns, throws, awaits the remote
    call, or writes to the console and goes on. *)
Inductive Async (A : Type) : Type :=
| Return (a : A)
| Throw (error : Error)
| AwaitGenerateContent (request : GenerateContentParameters)
    (k : Settled -> Async A)
| ConsoleError (message : string) (error : Error) (k : Async A).

Arguments Return {A} a.
Arguments Throw {A} error.
Arguments AwaitGenerateContent {A} request k.
Arguments ConsoleError {A} message error k.

Fixpoint bind {A B : Type} (m : Async A) (f : A -> Async B) : Async B :=
  match m with
  | Return a => f a
  | Throw e => Throw e
  | AwaitGenerateContent request k =>
      AwaitGenerateContent request (fun s => bind (k s) f)
  | ConsoleError message e k => ConsoleError message e (bind k f)
  end.

Notation "x <- m ;; k" := (bind m (fun x => k))
  (at level 61, m at next level, right associativity).

(** [try { body } catch (error) { handler }]. *)
Fixpoint tryCatch {A : Type} (body : Async A) (handler : Error -> Async A)
  : Async A :=
  match body with
  | Return a => Return a
  | Throw e => handler e
  | AwaitGenerateContent request k =>
      AwaitGenerateContent request (fun s => tryCatch (k s) handler)
  | ConsoleError message e k => ConsoleError message e (tryCatch k handler)
  end.

(** [await ai.models.generateContent(request)]. *)
Definition generateContent (request : GenerateContentParameters)
  : Async GenerateContentResponse :=
  AwaitGenerateContent request (fun s =>
    match s with
    | Fulfilled response => Return response
    | Rejected e => Throw e
    end).

Definition lf : string := String newline EmptyString.

Definition improvePrompt (text : string) : string :=
  "You are an expert editor. Please revise the following text to improve clarity, grammar, and flow while maintaining the original meaning. "
  ++ lf ++ "      "
  ++ lf ++ "      Return ONLY the revised text. Do not add any conversational filler or markdown formatting blocks (like ```)."
  ++ lf ++ "      "
  ++ lf ++ "      Text to revise:"
  ++ lf ++ "      " ++ text.

Definition improveRequest (text : string) : GenerateContentParameters :=
  mkParameters "gemini-2.5-flash" (improvePrompt text) (3 # 10).

(** [a || b] on strings: the empty string is falsy, [undefined] too. *)
Definition orElse (a : option string) (b : string) : string :=
  match a with
  | Some (String c s) => String c s
  | _ => b
  end.

Definition improveText (text : string) : Async string :=
  if String.eqb text "" || (String.length (trim text) =? 0) then Return ""
  else
    tryCatch
      (response <- generateContent (improveRequest text) ;;
       Return (orElse (option_map trim (response_text response)) text))
      (fun error =>
         ConsoleError "Error calling Gemini API:" error (Throw error)).

(** Observations of one run. *)
Inductive Event : Type :=
| RemoteCall (request : GenerateContentParameters)
| Logged (message : string) (error : Error).

Inductive Outcome (A : Type) : Type :=
| Returned (a : A)
| Thrown (error : Error).

Arguments Returned {A} a.
Arguments Thrown {A} error.

(** Runs a computation against a remote service, given by how it settles
    each request. *)
Fixpoint run {A : Type} (service : GenerateContentParameters -> Settled)
  (m : Async A) : Outcome A * list Event :=
  match m with
  | Return a => (Returned a, [])
  | Throw e => (Thrown e, [])
  | AwaitGenerateContent request k =>
      let (o, trace) := run service (k (service request)) in
      (o, RemoteCall request :: trace)
  | ConsoleError message e k =>
      let (o, trace) := run service k in
      (o, Logged message e :: trace)
  end.

End GeminiService.

(* ================================================================== *)
(** ** [services/geminiService]: the explanation wrapper *)

Module GeminiExplain.

Import GeminiService.

Definition explainPrompt (original revised : string) : string :=
  "You are an expert editor. I have revised a text. "
  ++ lf
  ++ "      Original: "
  ++ dquote
  ++ original
  ++ dquote
  ++ lf
  ++ "      Revised: "
  ++ dquote
  ++ revised
  ++ dquote
  ++ lf
  ++ "      "
  ++ lf
  ++ "      Please provide a brief, professional explanation of the key changes made (e.g., improved clarity, corrected grammar, better flow). "
  ++ lf
  ++ "      Keep it concise (2-3 sentences). Do not use markdown formatting.".

Definition explainRequest (original revised : string)
  : GenerateContentParameters :=
  mkParameters "gemini-2.5-flash" (explainPrompt original revised) (5 # 10).

(** The text returned when the response holds no text. *)
Definition explainDefault : string :=
  "I have made several improvements to the text for better clarity and professional tone.".

(** The text returned when the remote call fails. *)
Definition explainFallback : string :=
  "I have revised the text to improve clarity and flow.".

Definition explainChanges (original revised : string) : Async string :=
  if String.eqb original "" || String.eqb revised "" then Return ""
  else
    tryCatch
      (response <- generateContent (explainRequest original revised) ;;
       Return (orElse (option_map trim (response_text response))
                 explainDefault))
      (fun error =>
         ConsoleError "Error explaining changes:" error
           (Return explainFallback)).

End GeminiExplain.

(* ================================================================== *)
(** ** [App]: state, handlers and export texts *)

Module App.

Import GeminiService.

(** The [useState] cells of the component. *)
Record AppState : Type := mkAppState {
  originalText : string;
  revisedText : string;
  isRevisedDirty : bool;
  isAiLoading : bool;
  isImageLoading : bool;
  isEmailLoading : bool;
  emailPreviewHtml : option string;
  emailPreviewPlain : option string
}.

Definition initialState : AppState :=
  mkAppState "" "" false false false false None None.

Definition setOriginalText (v : string) (st : AppState) : AppState :=
  mkAppState v (revisedText st) (isRevisedDirty st) (isAiLoading st)
    (isImageLoading st) (isEmailLoading st)
    (emailPreviewHtml st) (emailPreviewPlain st).

Definition setRevisedText (v : string) (st : AppState) : AppState :=
  mkAppState (originalText st) v (isRevisedDirty st) (isAiLoading st)
    (isImageLoading st) (isEmailLoading st)
    (emailPreviewHtml st) (emailPreviewPlain st).

Definition setIsRevisedDirty (b : bool) (st : AppState) : AppState :=
  mkAppState (originalText st) (revisedText st) b (isAiLoading st)
    (isImageLoading st) (isEmailLoading st)
    (emailPreviewHtml st) (emailPreviewPlain st).

Definition setIsAiLoading (b : bool) (st : AppState) : AppState :=
  mkAppState (originalText st) (revisedText st) (isRevisedDirty st) b
    (isImageLoading st) (isEmailLoading st)
    (emailPreviewHtml st) (emailPreviewPlain st).

(** [handleOriginalChange], on the new value of the text area. *)
Definition handleOriginalChange (newVal : string) (st : AppState) : AppState :=
  let st1 := setOriginalText newVal st in
  if negb (isRevisedDirty st) && String.eqb (revisedText st) ""
  then setRevisedText newVal st1
  else st1.

Definition handleRevisedChange (v : string) (st : AppState) : AppState :=
  setIsRevisedDirty true (setRevisedText v st).

Definition handleReset (st : AppState) : AppState :=
  setIsRevisedDirty false (setRevisedText "" (setOriginalText "" st)).

(** The two [Clear] buttons. *)
Definition clearOriginal (st : AppState) : AppState := setOriginalText "" st.

Definition clearRevised (st : AppState) : AppState :=
  setIsRevisedDirty true (setRevisedText "" st).

(** What a handler does to the outside. *)
Inductive UiEvent : Type :=
| ServiceEvent (ev : Event)
| Alert (message : string).

(** [handleGenerateRevision], run to its end against a remote service:
    the new state and what was done to the outside. *)
Definition handleGenerateRevision
  (service : GenerateContentParameters -> Settled) (st : AppState)
  : AppState * list UiEvent :=
  if String.eqb (originalText st) "" then (st, [])
  else
    let st1 := setIsAiLoading true st in
    let (outcome, trace) := run service (improveText (originalText st)) in
    match outcome with
    | Returned improved =>
        (setIsAiLoading false
           (setIsRevisedDirty true (setRevisedText improved st1)),
         map ServiceEvent trace)
    | Thrown _ =>
        (setIsAiLoading false st1,
         map ServiceEvent trace
         ++ [Alert "Failed to generate revision. Please check your API key or connection."])
    end.

(** The expression [cleanText.replace(/\n/g, '<br>')] of the email draft. *)
Definition emailCleanHtml (cleanText : string) : string :=
  replaceAll newline "<br>" cleanText.

(** The constant [htmlBody] of [handleGenerateEmailDraft]. *)
Definition htmlBody (dataUrl explanation cleanText : string) : string :=
  lf
  ++ "        <div style="
  ++ dquote
  ++ "font-family: Calibri, Arial, sans-serif; font-size: 11pt; color: #000000; line-height: 1.5;"
  ++ dquote
  ++ ">"
  ++ lf
  ++ "          <p>I have reviewed the text you provided and here is a red line version showing the changes I made:</p>"
  ++ lf
  ++ "          <div style="
  ++ dquote
  ++ "margin: 20px 0; border: 1px solid #e2e8f0; display: inline-block;"
  ++ dquote
  ++ ">"
  ++ lf
  ++ "            <img src="
  ++ dquote
  ++ dataUrl
  ++ dquote
  ++ " alt="
  ++ dquote
  ++ "Redline Comparison"
  ++ dquote
  ++ " style="
  ++ dquote
  ++ "max-width: 100%; display: block;"
  ++ dquote
  ++ " />"
  ++ lf
  ++ "          </div>"
  ++ lf
  ++ "          <p><strong>Explanation of changes:</strong></p>"
  ++ lf
  ++ "          <p>"
  ++ explanation
  ++ "</p>"
  ++ lf
  ++ "          <br />"
  ++ lf
  ++ "          <p><strong>Here is a clean version of the text:</strong></p>"
  ++ lf
  ++ "          <div style="
  ++ dquote
  ++ "background-color: #f8fafc; padding: 15px; border-left: 4px solid #cbd5e1; font-family: inherit;"
  ++ dquote
  ++ ">"
  ++ lf
  ++ "            "
  ++ emailCleanHtml cleanText
  ++ lf
  ++ "          </div>"
  ++ lf
  ++ "        </div>"
  ++ lf
  ++ "      ".

End App.

(* ================================================================== *)
(** ** Vocabulary of the properties *)

Definition flatMapString (f : ascii -> string) : string -> string :=
  fix go (s : string) : string :=
    match s with
    | EmptyString => EmptyString
    | String a rest => (f a ++ go rest)%string
    end.

(** The escaping as the specification words it, one character at a time:
    the three markup characters become entities, a newline becomes the
    line-break marker, everything else is copied. *)
Definition escapeChar (a : ascii) : string :=
  if Ascii.eqb a "&" then "&amp;"
  else if Ascii.eqb a "<" then "&lt;"
  else if Ascii.eqb a ">" then "&gt;"
  else if Ascii.eqb a newline then "<br>"
  else String a EmptyString.

Definition isMarkupChar (a : ascii) : bool :=
  Ascii.eqb a "&" || Ascii.eqb a "<" || Ascii.eqb a ">" || Ascii.eqb a newline.

(** Texts made only of plain characters, the three entities and the
    line-break marker. *)
Inductive EscapedText : string -> Prop :=
| escaped_nil : EscapedText ""
| escaped_plain a s :
    isMarkupChar a = false -> EscapedText s -> EscapedText (String a s)
| escaped_amp s : EscapedText s -> EscapedText ("&amp;" ++ s)
| escaped_lt s : EscapedText s -> EscapedText ("&lt;" ++ s)
| escaped_gt s : EscapedText s -> EscapedText ("&gt;" ++ s)
| escaped_br s : EscapedText s -> EscapedText ("<br>" ++ s).

Fixpoint occurs (a : ascii) (s : string) : bool :=
  match s with
  | EmptyString => false
  | String b rest => Ascii.eqb a b || occurs a rest
  end.

(** Number of positions of [s] at which [p] starts. *)
Fixpoint countOccurrences (p s : string) : nat :=
  match s with
  | EmptyString => if prefix p s then 1 else 0
  | String _ rest => (if prefix p s then 1 else 0) + countOccurrences p rest
  end.

Definition openTag (t : ChangeType) : string :=
  match t with
  | unchanged => "<span>"
  | added => addedOpen
  | removed => removedOpen
  end.

Definition keptIn (kinds : list ChangeType) (chunk : DiffChunk) : bool :=
  existsb (ChangeType_eqb (type chunk)) kinds.

(** Concatenation of the values of the chunks whose type is in [kinds]. *)
Definition valuesOf (kinds : list ChangeType) (chunks : list DiffChunk) : string :=
  join "" (map value (filter (keptIn kinds) chunks)).

(** No [added] element is directly followed by a [removed] one: inside a
    run of changes every removal precedes every addition. *)
Fixpoint removedBeforeAdded (types : list ChangeType) : bool :=
  match types with
  | added :: ((removed :: _) as rest) => false
  | _ :: rest => removedBeforeAdded rest
  | [] => true
  end.

Definition shape (chunks : list DiffChunk) : list (string * ChangeType) :=
  map (fun c => (value c, type c)) chunks.

(** The two texts have no token in common. *)
Definition disjointTokens (a b : string) : Prop :=
  forall t, In t (Diff.tokenize a) -> ~ In t (Diff.tokenize b).

(** The word of a token: the token without its trailing white space. *)
Fixpoint wordOf (t : string) : string :=
  match t with
  | EmptyString => EmptyString
  | String c rest => if isWhiteSpace c then EmptyString else String c (wordOf rest)
  end.

(** The words of a text, in order; white space that leads the text counts
    as an empty word. *)
Definition words (s : string) : list string := map wordOf (Diff.tokenize s).

(** The two texts have no word in common. *)
Definition disjointWords (a b : string) : Prop :=
  forall w, In w (words a) -> ~ In w (words b).

(** The type the callback of [calculateDiffs] gives a change object. *)
Definition typeOfPart (part : Diff.Change) : ChangeType :=
  if Diff.removed part then removed
  else if Diff.added part then added else unchanged.

(** A source of draws whose first two windows differ. *)
Definition rngSample : Rng := fun k =>
  match k with
  | 0 => "0.4fzyo82mvyr"
  | 1 => "0.k2j8s9x0q1bd"
  | _ => "0.i"
  end.

Definition closeTag : string := "</span>".

(** The tokens a script reads from the old text, and those it writes to
    the new text. *)
Definition oldTokens (script : list (Diff.Op * string)) : list string :=
  map snd (filter (fun e => negb (Diff.Op_eqb (fst e) Diff.Ins)) script).

Definition newTokens (script : list (Diff.Op * string)) : list string :=
  map snd (filter (fun e => negb (Diff.Op_eqb (fst e) Diff.Del)) script).

Definition typeOfOp (o : Diff.Op) : ChangeType :=
  match o with
  | Diff.Keep => unchanged
  | Diff.Ins => added
  | Diff.Del => removed
  end.

(** Consecutive repetitions collapse to one element. *)
Fixpoint runs (types : list ChangeType) : list ChangeType :=
  match types with
  | [] => []
  | t :: rest =>
      match runs rest with
      | u :: us => if ChangeType_eqb t u then u :: us else t :: u :: us
      | [] => [t]
      end
  end.

Definition startsRemoved (types : list ChangeType) : bool :=
  match types with
  | removed :: _ => true
  | _ => false
  end.

Definition scriptTypes (script : list (Diff.Op * string)) : list ChangeType :=
  map (fun e => typeOfOp (fst e)) script.

(** Empty or white space only. *)
Fixpoint allWhiteSpace (s : string) : bool :=
  match s with
  | EmptyString => true
  | String c rest => isWhiteSpace c && allWhiteSpace rest
  end.

(** A remote service that rejects every request. *)
Definition failingService (e : GeminiService.Error)
  : GeminiService.GenerateContentParameters -> GeminiService.Settled :=
  fun _ => GeminiService.Rejected e.

(** A remote service that answers every request with the same response. *)
Definition answeringService (t : option string)
  : GeminiService.GenerateContentParameters -> GeminiService.Settled :=
  fun _ => GeminiService.Fulfilled (GeminiService.mkResponse t).

(** Number of remote calls in a trace. *)
Definition remoteCallCount (trace : list GeminiService.Event) : nat :=
  length (filter (fun ev =>
    match ev with
    | GeminiService.RemoteCall _ => true
    | GeminiService.Logged _ _ => false
    end) trace).

(** The first non-empty text of a list, the empty text when there is none. *)
Definition firstNonEmpty (vs : list string) : string :=
  hd "" (filter (fun v => negb (String.eqb v "")) vs).

(** What the user does to the two text panes. *)
Inductive Action : Type :=
| OriginalChange (v : string)
| RevisedChange (v : string)
| ClearOriginal
| ClearRevised
| Reset.

Definition step (a : Action) (st : App.AppState) : App.AppState :=
  match a with
  | OriginalChange v => App.handleOriginalChange v st
  | RevisedChange v => App.handleRevisedChange v st
  | ClearOriginal => App.clearOriginal st
  | ClearRevised => App.clearRevised st
  | Reset => App.handleReset st
  end.

Definition steps (actions : list Action) (st : App.AppState) : App.AppState :=
  fold_left (fun s a => step a s) actions st.

Definition isReset (a : Action) : bool :=
  match a with
  | Reset => true
  | _ => false
  end.

(** The text the user last gave the revised pane, [current] when the
    actions do not touch that pane. *)
Fixpoint lastRevised (actions : list Action) (current : string) : string :=
  match actions with
  | [] => current
  | RevisedChange v :: rest => lastRevised rest v
  | ClearRevised :: rest => lastRevised rest ""
  | _ :: rest => lastRevised rest current
  end.

(** The text the user last gave the original pane. *)
Fixpoint lastOriginal (actions : list Action) (current : string) : string :=
  match actions with
  | [] => current
  | OriginalChange v :: rest => lastOriginal rest v
  | ClearOriginal :: rest => lastOriginal rest ""
  | _ :: rest => lastOriginal rest current
  end.

Definition hasMarkup (s : string) : bool :=
  occurs "&" s || occurs "<" s || occurs ">" s.

(** Newline to the line-break marker, every other character copied. *)
Definition breakChar (a : ascii) : string :=
  if Ascii.eqb a newline then "<br>" else String a EmptyString.

Definition isRemoved (chunk : DiffChunk) : bool :=
  ChangeType_eqb (type chunk) removed.

(** What [htmlBody] holds after the clean text. *)
Definition htmlBodyTail : string :=
  GeminiService.lf ++ "          </div>"
  ++ GeminiService.lf ++ "        </div>"
  ++ GeminiService.lf ++ "      ".

(* ================================================================== *)
(** ** Strings and joins *)

Lemma append_nil_r (s : string) : (s ++ "")%string = s.
Proof. induction s as [|a s IH]; simpl; [reflexivity | now rewrite IH]. Qed.

Lemma append_assoc (s t u : string) :
  ((s ++ t) ++ u)%string = (s ++ (t ++ u))%string.
Proof. induction s as [|a s IH]; simpl; [reflexivity | now rewrite IH]. Qed.

Lemma string_length_app (s t : string) :
  String.length (s ++ t) = String.length s + String.length t.
Proof. induction s as [|a s IH]; simpl; [reflexivity | now rewrite IH]. Qed.

Lemma join_nil : join "" [] = "".
Proof. reflexivity. Qed.

Lemma join_cons (x : string) (xs : list string) :
  join "" (x :: xs) = (x ++ join "" xs)%string.
Proof.
  unfold join. destruct xs as [|y ys]; simpl.
  - now rewrite append_nil_r.
  - reflexivity.
Qed.

Lemma join_app (l1 l2 : list string) :
  join "" (l1 ++ l2) = (join "" l1 ++ join "" l2)%string.
Proof.
  induction l1 as [|x l1 IH]; [reflexivity|].
  change ((x :: l1) ++ l2) with (x :: (l1 ++ l2)).
  now rewrite !join_cons, IH, append_assoc.
Qed.

Lemma occurs_app (a : ascii) (s t : string) :
  occurs a (s ++ t) = occurs a s || occurs a t.
Proof.
  induction s as [|b s IH]; simpl; [reflexivity|].
  now rewrite IH, orb_assoc.
Qed.

(* ================================================================== *)
(** ** The mapping step of [calculateDiffs] *)

Lemma chunkOf_fst (part : Diff.Change) (index : nat) (rng : Rng) :
  fst (chunkOf part index rng)
  = mkDiffChunk (substr 2 9 (rng 0)) (Diff.value part) (typeOfPart part) index.
Proof.
  unfold chunkOf, generateId, typeOfPart.
  destruct (Diff.removed part), (Diff.added part); reflexivity.
Qed.

Lemma chunkOf_snd (part : Diff.Change) (index : nat) (rng : Rng) :
  snd (chunkOf part index rng) = fun k => rng (S k).
Proof. reflexivity. Qed.

Lemma mapParts_cons (part : Diff.Change) (rest : list Diff.Change)
  (index : nat) (rng : Rng) :
  fst (mapParts (part :: rest) index rng)
  = fst (chunkOf part index rng)
    :: fst (mapParts rest (S index) (snd (chunkOf part index rng))).
Proof.
  cbn [mapParts].
  destruct (chunkOf part index rng) as [chunk rng1]. cbn [fst snd].
  destruct (mapParts rest (S index) rng1); reflexivity.
Qed.

Lemma mapParts_length (parts : list Diff.Change) :
  forall index rng, length (fst (mapParts parts index rng)) = length parts.
Proof.
  induction parts as [|part rest IH]; intros index rng; [reflexivity|].
  rewrite mapParts_cons. simpl. now rewrite IH.
Qed.

Lemma mapParts_originalIndex (parts : list Diff.Change) :
  forall index rng,
    map originalIndex (fst (mapParts parts index rng))
    = seq index (length parts).
Proof.
  induction parts as [|part rest IH]; intros index rng; [reflexivity|].
  rewrite mapParts_cons, chunkOf_fst. simpl. now rewrite IH.
Qed.

Lemma mapParts_id (parts : list Diff.Change) :
  forall index rng,
    map id (fst (mapParts parts index rng))
    = map (fun k => substr 2 9 (rng k)) (seq 0 (length parts)).
Proof.
  induction parts as [|part rest IH]; intros index rng; [reflexivity|].
  rewrite mapParts_cons, chunkOf_fst, chunkOf_snd. simpl.
  rewrite IH, <- seq_shift, map_map. reflexivity.
Qed.

Lemma mapParts_shape (parts : list Diff.Change) :
  forall index rng,
    shape (fst (mapParts parts index rng))
    = map (fun part => (Diff.value part, typeOfPart part)) parts.
Proof.
  induction parts as [|part rest IH]; intros index rng; [reflexivity|].
  rewrite mapParts_cons, chunkOf_fst. unfold shape in *. simpl.
  now rewrite IH.
Qed.

(** C7. The [originalIndex] fields of the chunks returned by
    [calculateDiffs], read in sequence order, are exactly 0, 1, ..., n-1,
    where n is the number of chunks; this holds whatever the diff library
    returns. *)
Theorem calculateDiffs_originalIndex_contiguous
  (diffWords : string -> string -> list Diff.Change) (rng : Rng)
  (original revised : string) :
  let chunks := fst (calculateDiffs diffWords rng original revised) in
  map originalIndex chunks = seq 0 (length chunks).
Proof.
  unfold calculateDiffs. simpl.
  now rewrite mapParts_originalIndex, mapParts_length.
Qed.

(** The identifiers of one result are the windows [substr(2, 9)] of the
    successive draws. *)
Lemma calculateDiffs_ids
  (diffWords : string -> string -> list Diff.Change) (rng : Rng)
  (original revised : string) :
  map id (fst (calculateDiffs diffWords rng original revised))
  = map (fun k => substr 2 9 (rng k))
        (seq 0 (length (diffWords original revised))).
Proof. unfold calculateDiffs. apply mapParts_id. Qed.

(** C4, as stated, fails: when two draws of [Math.random] render alike,
    the two chunks of a one-word replacement share their [id]. *)
Lemma calculateDiffs_ids_can_collide :
  ~ NoDup (map id (diffChunks (rngConst "0.i") "a" "b")).
Proof.
  vm_compute. intro H. inversion H as [|x l Hnotin _]; subst.
  apply Hnotin. left. reflexivity.
Qed.

(** C4, amended. The chunks returned by [calculateDiffs] have pairwise
    distinct [id] values whenever the nine-character windows of the
    draws consumed for them are pairwise distinct; the code itself checks
    for no collision. *)
Theorem calculateDiffs_ids_distinct
  (diffWords : string -> string -> list Diff.Change) (rng : Rng)
  (original revised : string) :
  NoDup (map (fun k => substr 2 9 (rng k))
             (seq 0 (length (diffWords original revised)))) ->
  NoDup (map id (fst (calculateDiffs diffWords rng original revised))).
Proof. intro H. now rewrite calculateDiffs_ids. Qed.

Lemma calculateDiffs_ids_distinct_witness :
  NoDup (map id (fst (calculateDiffs Diff.diffWords rngSample "a" "b"))).
Proof.
  apply (calculateDiffs_ids_distinct Diff.diffWords rngSample "a" "b").
  vm_compute.
  constructor.
  - intros [H|[]]. discriminate H.
  - constructor; [intros [] | constructor].
Defined.

(** C10. [getCleanText] and [getRedlineHtml] read only the [value] and
    [type] of the chunks: on two sequences of equal length that agree
    elementwise on both fields the two projections agree, whatever the
    [id] and [originalIndex] fields hold. *)
Theorem projections_depend_on_value_and_type (cs1 cs2 : list DiffChunk) :
  Forall2 (fun a b => value a = value b /\ type a = type b) cs1 cs2 ->
  getCleanText cs1 = getCleanText cs2
  /\ getRedlineHtml cs1 = getRedlineHtml cs2.
Proof.
  unfold getCleanText, getRedlineHtml.
  induction 1 as [|a b l1 l2 [Hv Ht] _ [IHc IHr]]; [split; reflexivity|].
  simpl map. rewrite !join_cons, IHc, IHr.
  unfold renderChunk. rewrite Hv, Ht. split; reflexivity.
Qed.

Lemma projections_depend_on_value_and_type_witness :
  getCleanText [mkDiffChunk "a1" "x<" added 0; mkDiffChunk "b2" "y" removed 1]
  = getCleanText [mkDiffChunk "zz" "x<" added 7; mkDiffChunk "zz" "y" removed 7]
  /\ getRedlineHtml [mkDiffChunk "a1" "x<" added 0; mkDiffChunk "b2" "y" removed 1]
  = getRedlineHtml [mkDiffChunk "zz" "x<" added 7; mkDiffChunk "zz" "y" removed 7].
Proof.
  apply (projections_depend_on_value_and_type
           [mkDiffChunk "a1" "x<" added 0; mkDiffChunk "b2" "y" removed 1]
           [mkDiffChunk "zz" "x<" added 7; mkDiffChunk "zz" "y" removed 7]).
  repeat constructor.
Defined.

(* ================================================================== *)
(** ** Escaping in [getRedlineHtml] *)

Lemma flatMapString_app (f : ascii -> string) (s t : string) :
  flatMapString f (s ++ t)
  = (flatMapString f s ++ flatMapString f t)%string.
Proof.
  induction s as [|a s IH]; simpl; [reflexivity|].
  now rewrite IH, append_assoc.
Qed.

Lemma flatMapString_ext (f g : ascii -> string) (s : string) :
  (forall a, f a = g a) -> flatMapString f s = flatMapString g s.
Proof.
  intro H. induction s as [|a s IH]; simpl; [reflexivity|].
  now rewrite H, IH.
Qed.

Lemma replaceAll_app (c : ascii) (r s t : string) :
  replaceAll c r (s ++ t)
  = (replaceAll c r s ++ replaceAll c r t)%string.
Proof.
  induction s as [|a s IH]; simpl; [reflexivity|].
  destruct (Ascii.eqb a c); simpl; rewrite IH; [|reflexivity].
  now rewrite append_assoc.
Qed.

(** A global one-character replacement acts on each character by itself. *)
Lemma replaceAll_flatMapString (c : ascii) (r : string)
  (f : ascii -> string) (s : string) :
  replaceAll c r (flatMapString f s)
  = flatMapString (fun a => replaceAll c r (f a)) s.
Proof.
  induction s as [|a s IH]; simpl; [reflexivity|].
  now rewrite replaceAll_app, IH.
Qed.

Lemma replaceAll_single (c : ascii) (r s : string) :
  replaceAll c r s
  = flatMapString (fun a => if Ascii.eqb a c then r else String a "") s.
Proof.
  induction s as [|a s IH]; simpl; [reflexivity|].
  rewrite IH. destruct (Ascii.eqb a c); reflexivity.
Qed.

(** The four replacements in the order of the source amount to
    [escapeChar] on a single character: no replacement touches what an
    earlier one has produced. *)
Lemma escape_one (a : ascii) :
  replaceAll newline "<br>"
    (replaceAll ">" "&gt;"
      (replaceAll "<" "&lt;"
        (if Ascii.eqb a "&" then "&amp;" else String a "")))
  = escapeChar a.
Proof.
  unfold escapeChar.
  destruct (Ascii.eqb a "&") eqn:E1; [reflexivity|].
  cbn [replaceAll].
  destruct (Ascii.eqb a "<") eqn:E2; [reflexivity|].
  cbn [replaceAll].
  destruct (Ascii.eqb a ">") eqn:E3; [reflexivity|].
  cbn [replaceAll].
  destruct (Ascii.eqb a newline) eqn:E4; reflexivity.
Qed.

Lemma escapeText_flatMap (v : string) :
  escapeText v = flatMapString escapeChar v.
Proof.
  unfold escapeText.
  rewrite (replaceAll_single "&"), !replaceAll_flatMapString.
  apply flatMapString_ext, escape_one.
Qed.

Lemma escapeChar_cases (a : ascii) :
  (a = "&"%char /\ escapeChar a = "&amp;")
  \/ (a = "<"%char /\ escapeChar a = "&lt;")
  \/ (a = ">"%char /\ escapeChar a = "&gt;")
  \/ (a = newline /\ escapeChar a = "<br>")
  \/ (isMarkupChar a = false /\ escapeChar a = String a "").
Proof.
  unfold escapeChar, isMarkupChar.
  destruct (Ascii.eqb_spec a "&"); [left; now subst|].
  destruct (Ascii.eqb_spec a "<"); [right; left; now subst|].
  destruct (Ascii.eqb_spec a ">"); [right; right; left; now subst|].
  destruct (Ascii.eqb_spec a newline); [right; right; right; left; now subst|].
  right; right; right; right. split; reflexivity.
Qed.

Lemma escapeText_escaped (v : string) : EscapedText (escapeText v).
Proof.
  rewrite escapeText_flatMap.
  induction v as [|a v IH]; simpl; [constructor|].
  destruct (escapeChar_cases a)
    as [[_ E]|[[_ E]|[[_ E]|[[_ E]|[Hp E]]]]]; rewrite E.
  - now apply escaped_amp.
  - now apply escaped_lt.
  - now apply escaped_gt.
  - now apply escaped_br.
  - now apply escaped_plain.
Qed.

Lemma escapeChar_no_newline (a : ascii) : occurs newline (escapeChar a) = false.
Proof.
  destruct (escapeChar_cases a)
    as [[_ E]|[[_ E]|[[_ E]|[[_ E]|[Hp E]]]]]; rewrite E; try reflexivity.
  cbn [occurs]. unfold isMarkupChar in Hp.
  rewrite !orb_false_iff in Hp. destruct Hp as [_ Hn].
  now rewrite Ascii.eqb_sym, Hn.
Qed.

Lemma escapeText_no_newline (v : string) : occurs newline (escapeText v) = false.
Proof.
  rewrite escapeText_flatMap.
  induction v as [|a v IH]; simpl; [reflexivity|].
  now rewrite occurs_app, escapeChar_no_newline, IH.
Qed.

Lemma renderChunk_spec (chunk : DiffChunk) :
  renderChunk chunk
  = (openTag (type chunk) ++ escapeText (value chunk) ++ closeTag)%string.
Proof. unfold renderChunk. destruct (type chunk); reflexivity. Qed.

Lemma openTag_no_newline (t : ChangeType) : occurs newline (openTag t) = false.
Proof. destruct t; reflexivity. Qed.

Lemma getRedlineHtml_cons (chunk : DiffChunk) (chunks : list DiffChunk) :
  getRedlineHtml (chunk :: chunks)
  = (renderChunk chunk ++ getRedlineHtml chunks)%string.
Proof. unfold getRedlineHtml. simpl map. apply join_cons. Qed.

Lemma getRedlineHtml_no_newline (chunks : list DiffChunk) :
  occurs newline (getRedlineHtml chunks) = false.
Proof.
  induction chunks as [|c cs IH]; [reflexivity|].
  rewrite getRedlineHtml_cons, renderChunk_spec, !occurs_app, IH.
  now rewrite openTag_no_newline, escapeText_no_newline.
Qed.

(** C3. In the output of [getRedlineHtml] the text of every chunk is its
    [value] escaped character by character: [&], [<] and [>] are emitted
    as the entities [&amp;], [&lt;] and [&gt;], a newline as the marker
    [<br>], every other character as itself; the text is therefore made of
    plain characters, entities and markers only, and the whole output
    holds no raw newline. *)
Theorem getRedlineHtml_escapes (chunks : list DiffChunk) :
  getRedlineHtml chunks
  = join "" (map (fun chunk =>
      (openTag (type chunk)
       ++ flatMapString escapeChar (value chunk) ++ closeTag)%string) chunks)
  /\ Forall (fun chunk =>
       EscapedText (flatMapString escapeChar (value chunk))) chunks
  /\ (escapeChar "&" = "&amp;" /\ escapeChar "<" = "&lt;"
      /\ escapeChar ">" = "&gt;" /\ escapeChar newline = "<br>"
      /\ forall a, isMarkupChar a = true \/ escapeChar a = String a "")
  /\ occurs newline (getRedlineHtml chunks) = false.
Proof.
  split; [|split; [|split]].
  - unfold getRedlineHtml. f_equal. apply map_ext. intro c.
    now rewrite renderChunk_spec, escapeText_flatMap.
  - apply Forall_forall. intros c _.
    rewrite <- escapeText_flatMap. apply escapeText_escaped.
  - repeat split; try reflexivity.
    intro a. destruct (escapeChar_cases a)
      as [[-> _]|[[-> _]|[[-> _]|[[-> _]|[_ E]]]]];
      [left; reflexivity .. | right; exact E].
  - apply getRedlineHtml_no_newline.
Qed.

(* ================================================================== *)
(** ** Counting the containers of [getRedlineHtml] *)

Lemma prefix_nil (s : string) : prefix "" s = true.
Proof. destruct s; reflexivity. Qed.

Lemma prefix_app (p s : string) : prefix p (p ++ s) = true.
Proof.
  induction p as [|a p IH]; simpl; [apply prefix_nil|].
  destruct (ascii_dec a a) as [_|N]; [exact IH | now elim N].
Qed.

Section Counting.

(** A pattern that starts with [<] and goes on with [c2]. *)
Variable c2 : ascii.
Variable p' : string.

Local Abbreviation pat := (String "<" (String c2 p')).

Lemma count_skip_char (a : ascii) (rest : string) :
  a <> "<"%char ->
  countOccurrences pat (String a rest) = countOccurrences pat rest.
Proof.
  intro Ha. cbn [countOccurrences prefix].
  destruct (ascii_dec "<" a) as [E|_]; [now elim Ha | reflexivity].
Qed.

Lemma count_skip (s rest : string) :
  occurs "<" s = false ->
  countOccurrences pat (s ++ rest) = countOccurrences pat rest.
Proof.
  induction s as [|a s IH]; intro H; [reflexivity|].
  cbn [occurs] in H. apply orb_false_iff in H. destruct H as [Ha Hs].
  change (String a s ++ rest)%string with (String a (s ++ rest)).
  rewrite count_skip_char; [now apply IH|].
  intro E. subst a. discriminate Ha.
Qed.

Lemma count_lt (x rest : string) :
  occurs "<" x = false ->
  countOccurrences pat (String "<" x ++ rest)
  = (if prefix pat (String "<" x ++ rest) then 1 else 0)
    + countOccurrences pat rest.
Proof.
  intro H. change (String "<" x ++ rest)%string with (String "<" (x ++ rest)).
  cbn [countOccurrences]. now rewrite count_skip.
Qed.

Hypothesis c2_not_b : c2 <> "b"%char.

(** Escaped text never starts a tag. *)
Lemma count_escapeChar (a : ascii) (rest : string) :
  countOccurrences pat (escapeChar a ++ rest) = countOccurrences pat rest.
Proof.
  destruct (escapeChar_cases a)
    as [[_ E]|[[_ E]|[[_ E]|[[_ E]|[Hp E]]]]]; rewrite E.
  - now apply count_skip.
  - now apply count_skip.
  - now apply count_skip.
  - rewrite (count_lt "br>" rest eq_refl). cbn [append prefix].
    destruct (ascii_dec "<" "<") as [_|N]; [|now elim N].
    destruct (ascii_dec c2 "b") as [E'|_]; [now elim c2_not_b | reflexivity].
  - apply count_skip. cbn [occurs]. unfold isMarkupChar in Hp.
    rewrite !orb_false_iff in Hp. destruct Hp as [[[_ Hlt] _] _].
    now rewrite Ascii.eqb_sym, Hlt.
Qed.

Lemma count_escapeText (v rest : string) :
  countOccurrences pat (escapeText v ++ rest) = countOccurrences pat rest.
Proof.
  rewrite escapeText_flatMap.
  induction v as [|a v IH]; [reflexivity|].
  cbn [flatMapString]. fold (flatMapString escapeChar).
  now rewrite append_assoc, count_escapeChar.
Qed.

End Counting.

Lemma openTag_shape (t : ChangeType) :
  exists x, openTag t = ("<span" ++ x)%string /\ occurs "<" x = false.
Proof.
  destruct t; eexists; (split; [vm_compute; reflexivity | reflexivity]).
Qed.

Lemma renderChunk_app (chunk : DiffChunk) (rest : string) :
  (renderChunk chunk ++ rest)%string
  = (openTag (type chunk) ++ escapeText (value chunk) ++ closeTag ++ rest)%string.
Proof. now rewrite renderChunk_spec, !append_assoc. Qed.

(** Each rendered chunk holds exactly one closing tag. *)
Lemma count_close_renderChunk (chunk : DiffChunk) (rest : string) :
  countOccurrences closeTag (renderChunk chunk ++ rest)
  = S (countOccurrences closeTag rest).
Proof.
  rewrite renderChunk_app.
  destruct (openTag_shape (type chunk)) as [x [-> Hx]].
  unfold closeTag at 1.
  change ("<span" ++ x)%string with (String "<" ("span" ++ x)).
  rewrite (count_lt "/" "span>").
  2:{ now rewrite occurs_app, Hx. }
  cbn [append prefix].
  destruct (ascii_dec "<" "<") as [_|N]; [|now elim N].
  destruct (ascii_dec "/" "s") as [E|_]; [discriminate E|].
  cbn [Nat.add].
  rewrite (count_escapeText "/" "span>") by discriminate.
  unfold closeTag.
  rewrite (count_lt "/" "span>" "/span>" rest eq_refl).
  now rewrite prefix_app.
Qed.

(** Each rendered chunk holds exactly one opening tag. *)
Lemma count_open_renderChunk (chunk : DiffChunk) (rest : string) :
  countOccurrences "<span" (renderChunk chunk ++ rest)
  = S (countOccurrences "<span" rest).
Proof.
  rewrite renderChunk_app.
  destruct (openTag_shape (type chunk)) as [x [-> Hx]].
  rewrite append_assoc.
  change ("<span" ++ x ++ escapeText (value chunk) ++ closeTag ++ rest)%string
    with (String "<" "span" ++ x ++ escapeText (value chunk) ++ closeTag ++ rest)%string.
  rewrite (count_lt "s" "pan" "span" _ eq_refl).
  change (String "<" "span" ++ x ++ escapeText (value chunk) ++ closeTag ++ rest)%string
    with ("<span" ++ x ++ escapeText (value chunk) ++ closeTag ++ rest)%string.
  rewrite prefix_app, (count_skip "s" "pan" x) by exact Hx.
  rewrite (count_escapeText "s" "pan") by discriminate.
  unfold closeTag.
  change ("</span>" ++ rest)%string with (String "<" "/span>" ++ rest)%string.
  rewrite (count_lt "s" "pan" "/span>" rest eq_refl).
  reflexivity.
Qed.

Lemma getRedlineHtml_app (cs1 cs2 : list DiffChunk) :
  getRedlineHtml (cs1 ++ cs2)
  = (getRedlineHtml cs1 ++ getRedlineHtml cs2)%string.
Proof. unfold getRedlineHtml. now rewrite map_app, join_app. Qed.

(** C8. [getRedlineHtml] renders the chunks one by one in sequence order,
    each as one container: an opening tag chosen by the type, the escaped
    value, a closing tag.  The output holds exactly as many opening and as
    many closing tags as there are chunks; an [unchanged] chunk gets the
    bare tag, an [added] chunk the underline decoration and a [removed]
    chunk the line-through decoration. *)
Theorem getRedlineHtml_one_span_per_chunk (chunks : list DiffChunk) :
  getRedlineHtml chunks
  = join "" (map (fun chunk =>
      (openTag (type chunk) ++ escapeText (value chunk) ++ closeTag)%string)
      chunks)
  /\ countOccurrences "<span" (getRedlineHtml chunks) = length chunks
  /\ countOccurrences closeTag (getRedlineHtml chunks) = length chunks
  /\ (forall cs1 cs2, getRedlineHtml (cs1 ++ cs2)
        = (getRedlineHtml cs1 ++ getRedlineHtml cs2)%string)
  /\ openTag unchanged = "<span>"
  /\ (countOccurrences "text-decoration: underline;" (openTag added) = 1
      /\ countOccurrences "text-decoration: line-through;" (openTag added) = 0)
  /\ (countOccurrences "text-decoration: line-through;" (openTag removed) = 1
      /\ countOccurrences "text-decoration: underline;" (openTag removed) = 0).
Proof.
  split; [|split; [|split; [|split; [|split; [|split]]]]].
  - unfold getRedlineHtml. f_equal. apply map_ext. intro c.
    apply renderChunk_spec.
  - induction chunks as [|c cs IH]; [reflexivity|].
    rewrite getRedlineHtml_cons, count_open_renderChunk, IH. reflexivity.
  - induction chunks as [|c cs IH]; [reflexivity|].
    rewrite getRedlineHtml_cons, count_close_renderChunk, IH. reflexivity.
  - apply getRedlineHtml_app.
  - reflexivity.
  - split; vm_compute; reflexivity.
  - split; vm_compute; reflexivity.
Qed.

(* ================================================================== *)
(** ** The word diff: tokens, alignment, runs *)

Lemma tokenize_cons_join (c : ascii) (rest : string) :
  join "" (Diff.tokenize (String c rest))
  = String c (join "" (Diff.tokenize rest)).
Proof.
  cbn [Diff.tokenize].
  destruct (Diff.tokenize rest) as [|[|d t] ts].
  - reflexivity.
  - now rewrite !join_cons.
  - destruct (isWhiteSpace c && negb (isWhiteSpace d));
      now rewrite !join_cons.
Qed.

(** Tokenizing loses nothing. *)
Lemma tokenize_join (s : string) : join "" (Diff.tokenize s) = s.
Proof.
  induction s as [|c rest IH]; [reflexivity|].
  now rewrite tokenize_cons_join, IH.
Qed.

Lemma tokenize_nonempty (c : ascii) (rest : string) :
  Diff.tokenize (String c rest) <> [].
Proof.
  cbn [Diff.tokenize].
  destruct (Diff.tokenize rest) as [|[|d t] ts]; try discriminate.
  destruct (isWhiteSpace c && negb (isWhiteSpace d)); discriminate.
Qed.

Lemma align_nil_r (xs : list string) :
  Diff.align xs [] = map (pair Diff.Del) xs.
Proof. destruct xs; reflexivity. Qed.

Lemma align_cons_cons (x y : string) (xs ys : list string) :
  Diff.align (x :: xs) (y :: ys)
  = if String.eqb x y then (Diff.Keep, x) :: Diff.align xs ys
    else if Diff.keeps (Diff.align (x :: xs) ys)
            <=? Diff.keeps (Diff.align xs (y :: ys))
         then (Diff.Del, x) :: Diff.align xs (y :: ys)
         else (Diff.Ins, y) :: Diff.align (x :: xs) ys.
Proof. reflexivity. Qed.

(** Induction along the recursion of [align]. *)
Lemma align_ind (P : list string -> list string -> Prop) :
  (forall ys, P [] ys) ->
  (forall x xs, P (x :: xs) []) ->
  (forall x xs y ys,
      P xs ys -> P xs (y :: ys) -> P (x :: xs) ys -> P (x :: xs) (y :: ys)) ->
  forall xs ys, P xs ys.
Proof.
  intros Hnil Hr Hstep.
  induction xs as [|x xs IHx]; [exact Hnil|].
  induction ys as [|y ys IHy]; [apply Hr|].
  apply Hstep; [apply IHx | apply IHx | exact IHy].
Qed.

Lemma oldTokens_Ins (ys : list string) :
  oldTokens (map (pair Diff.Ins) ys) = [].
Proof. induction ys; [reflexivity | exact IHys]. Qed.

Lemma newTokens_Ins (ys : list string) :
  newTokens (map (pair Diff.Ins) ys) = ys.
Proof.
  induction ys as [|y ys IH]; [reflexivity|].
  unfold newTokens in *. simpl. now rewrite IH.
Qed.

Lemma oldTokens_Del (xs : list string) :
  oldTokens (map (pair Diff.Del) xs) = xs.
Proof.
  induction xs as [|x xs IH]; [reflexivity|].
  unfold oldTokens in *. simpl. now rewrite IH.
Qed.

Lemma newTokens_Del (xs : list string) :
  newTokens (map (pair Diff.Del) xs) = [].
Proof. induction xs; [reflexivity | exact IHxs]. Qed.

(** The script deletes and keeps exactly the old tokens, in order. *)
Lemma align_old (xs ys : list string) : oldTokens (Diff.align xs ys) = xs.
Proof.
  revert xs ys. apply align_ind.
  - intro ys. apply oldTokens_Ins.
  - intros x xs. rewrite align_nil_r. apply oldTokens_Del.
  - intros x xs y ys IH1 IH2 IH3. rewrite align_cons_cons.
    destruct (String.eqb x y).
    + unfold oldTokens in *. cbn [filter map fst snd negb Diff.Op_eqb]. now rewrite IH1.
    + destruct (_ <=? _).
      * unfold oldTokens in *. cbn [filter map fst snd negb Diff.Op_eqb]. now rewrite IH2.
      * exact IH3.
Qed.

(** The script inserts and keeps exactly the new tokens, in order. *)
Lemma align_new (xs ys : list string) : newTokens (Diff.align xs ys) = ys.
Proof.
  revert xs ys. apply align_ind.
  - intro ys. apply newTokens_Ins.
  - intros x xs. rewrite align_nil_r. apply newTokens_Del.
  - intros x xs y ys IH1 IH2 IH3. rewrite align_cons_cons.
    destruct (String.eqb_spec x y) as [->|_].
    + unfold newTokens in *. cbn [filter map fst snd negb Diff.Op_eqb]. now rewrite IH1.
    + destruct (_ <=? _).
      * exact IH2.
      * unfold newTokens in *. cbn [filter map fst snd negb Diff.Op_eqb]. now rewrite IH3.
Qed.

Lemma opOf_changeOf (o : Diff.Op) (v : string) :
  Diff.opOf (Diff.changeOf o v) = o.
Proof. destruct o; reflexivity. Qed.

Lemma value_changeOf (o : Diff.Op) (v : string) :
  Diff.value (Diff.changeOf o v) = v.
Proof. destruct o; reflexivity. Qed.

Lemma Op_eqb_eq (a b : Diff.Op) : Diff.Op_eqb a b = true <-> a = b.
Proof. destruct a, b; simpl; split; congruence. Qed.

(** Coalescing keeps, operation by operation, the text of the script. *)
Lemma coalesce_text (P : Diff.Op -> bool) (script : list (Diff.Op * string)) :
  join "" (map Diff.value
             (filter (fun c => P (Diff.opOf c)) (Diff.coalesce script)))
  = join "" (map snd (filter (fun e => P (fst e)) script)).
Proof.
  induction script as [|[o t] rest IH]; [reflexivity|].
  cbn [Diff.coalesce filter fst].
  destruct (Diff.coalesce rest) as [|c cs].
  - cbn [filter map] in *. rewrite opOf_changeOf.
    destruct (P o); cbn [map]; rewrite ?join_cons, ?value_changeOf, <- IH;
      reflexivity.
  - destruct (Diff.Op_eqb o (Diff.opOf c)) eqn:E.
    + apply Op_eqb_eq in E. subst o.
      cbn [filter] in *. rewrite opOf_changeOf.
      destruct (P (Diff.opOf c)); cbn [map] in *.
      * rewrite !join_cons, value_changeOf, <- IH, join_cons.
        apply append_assoc.
      * exact IH.
    + cbn [filter]. rewrite opOf_changeOf.
      destruct (P o); cbn [map]; rewrite ?join_cons, ?value_changeOf, <- IH;
        reflexivity.
Qed.

Lemma typeOfPart_opOf (part : Diff.Change) :
  typeOfPart part = typeOfOp (Diff.opOf part).
Proof.
  unfold typeOfPart, Diff.opOf.
  destruct (Diff.removed part), (Diff.added part); reflexivity.
Qed.

(** The values of the chunks of some types are the values of the change
    objects that are given these types. *)
Lemma mapParts_valuesOf (kinds : list ChangeType) (parts : list Diff.Change) :
  forall index rng,
    valuesOf kinds (fst (mapParts parts index rng))
    = join "" (map Diff.value
        (filter (fun part =>
           existsb (ChangeType_eqb (typeOfOp (Diff.opOf part))) kinds) parts)).
Proof.
  unfold valuesOf.
  induction parts as [|part rest IH]; intros index rng; [reflexivity|].
  rewrite mapParts_cons, chunkOf_fst. cbn [filter].
  unfold keptIn at 1. cbn [type]. rewrite typeOfPart_opOf.
  destruct (existsb _ kinds); cbn [map value]; rewrite ?join_cons, IH;
    reflexivity.
Qed.

(** What [calculateDiffs] makes of the change objects of the library,
    whatever the library returns: the values of the chunks of some types
    are the values of the change objects that the callback gives these
    types. *)
Lemma calculateDiffs_valuesOf
  (diffWords : string -> string -> list Diff.Change) (rng : Rng)
  (kinds : list ChangeType) (original revised : string) :
  valuesOf kinds (fst (calculateDiffs diffWords rng original revised))
  = join "" (map Diff.value
      (filter (fun part => existsb (ChangeType_eqb (typeOfPart part)) kinds)
         (diffWords original revised))).
Proof.
  unfold calculateDiffs. rewrite mapParts_valuesOf.
  do 2 f_equal. apply filter_ext. intro part.
  now rewrite typeOfPart_opOf.
Qed.

(** The change objects of the library model hold the new text in the
    parts that are not removed and the old text in the parts that are not
    added. *)
Lemma diffWords_texts (A B : string) :
  join "" (map Diff.value
    (filter (fun part =>
       existsb (ChangeType_eqb (typeOfPart part)) [unchanged; added])
       (Diff.diffWords A B))) = B
  /\ join "" (map Diff.value
    (filter (fun part =>
       existsb (ChangeType_eqb (typeOfPart part)) [unchanged; removed])
       (Diff.diffWords A B))) = A.
Proof.
  unfold Diff.diffWords. split.
  - rewrite (filter_ext _ (fun c => (fun o =>
      existsb (ChangeType_eqb (typeOfOp o)) [unchanged; added]) (Diff.opOf c)))
      by (intro c; now rewrite typeOfPart_opOf).
    rewrite (coalesce_text
      (fun o => existsb (ChangeType_eqb (typeOfOp o)) [unchanged; added])).
    rewrite <- (tokenize_join B) at 2.
    rewrite <- (align_new (Diff.tokenize A) (Diff.tokenize B)) at 2.
    unfold newTokens. do 2 f_equal. apply filter_ext.
    intros [[] t]; reflexivity.
  - rewrite (filter_ext _ (fun c => (fun o =>
      existsb (ChangeType_eqb (typeOfOp o)) [unchanged; removed]) (Diff.opOf c)))
      by (intro c; now rewrite typeOfPart_opOf).
    rewrite (coalesce_text
      (fun o => existsb (ChangeType_eqb (typeOfOp o)) [unchanged; removed])).
    rewrite <- (tokenize_join A) at 2.
    rewrite <- (align_old (Diff.tokenize A) (Diff.tokenize B)) at 2.
    unfold oldTokens. do 2 f_equal. apply filter_ext.
    intros [[] t]; reflexivity.
Qed.

Lemma getCleanText_valuesOf (chunks : list DiffChunk) :
  getCleanText chunks = valuesOf [unchanged; added] chunks.
Proof.
  unfold getCleanText, valuesOf.
  induction chunks as [|c cs IH]; [reflexivity|].
  cbn [map filter]. unfold keptIn at 1.
  destruct (type c); cbn [existsb ChangeType_eqb orb map];
    rewrite !join_cons, IH; reflexivity.
Qed.

(** C1. For all texts A and B and the chunks C of [calculateDiffs] on
    them: the values of the [unchanged] and [added] chunks of C, in order,
    concatenate to B, which is also [getCleanText] of C; the values of the
    [unchanged] and [removed] chunks, in order, concatenate to A. *)
Theorem calculateDiffs_reconstructs (rng : Rng) (A B : string) :
  let C := fst (calculateDiffs Diff.diffWords rng A B) in
  valuesOf [unchanged; added] C = B
  /\ getCleanText C = B
  /\ valuesOf [unchanged; removed] C = A.
Proof.
  cbv zeta. rewrite getCleanText_valuesOf, !calculateDiffs_valuesOf.
  destruct (diffWords_texts A B) as [HB HA].
  now rewrite HA, HB.
Qed.

(* ================================================================== *)
(** ** Identical and unrelated texts *)

Lemma align_refl (xs : list string) :
  Diff.align xs xs = map (pair Diff.Keep) xs.
Proof.
  induction xs as [|x xs IH]; [reflexivity|].
  rewrite align_cons_cons, String.eqb_refl, IH. reflexivity.
Qed.

(** A script of one operation coalesces to one change object. *)
Lemma coalesce_same (o : Diff.Op) (l : list string) :
  l <> [] ->
  Diff.coalesce (map (pair o) l) = [Diff.changeOf o (join "" l)].
Proof.
  induction l as [|t l IH]; intro H; [now elim H|].
  destruct l as [|t2 l].
  - cbn [map Diff.coalesce]. now rewrite join_cons, join_nil, append_nil_r.
  - change (map (pair o) (t :: t2 :: l))
      with ((o, t) :: map (pair o) (t2 :: l)).
    cbn [Diff.coalesce]. rewrite IH by discriminate.
    rewrite opOf_changeOf, value_changeOf.
    replace (Diff.Op_eqb o o) with true by (now destruct o).
    now rewrite (join_cons t).
Qed.

Lemma coalesce_two (xs ys : list string) :
  xs <> [] -> ys <> [] ->
  Diff.coalesce (map (pair Diff.Del) xs ++ map (pair Diff.Ins) ys)
  = [Diff.changeOf Diff.Del (join "" xs); Diff.changeOf Diff.Ins (join "" ys)].
Proof.
  intros Hx Hy. induction xs as [|x xs IH]; [now elim Hx|].
  destruct xs as [|x2 xs].
  - cbn [map app Diff.coalesce]. rewrite (coalesce_same Diff.Ins ys Hy).
    cbn [Diff.opOf Diff.changeOf Diff.removed Diff.added Diff.Op_eqb].
    now rewrite join_cons, join_nil, append_nil_r.
  - change (map (pair Diff.Del) (x :: x2 :: xs) ++ map (pair Diff.Ins) ys)
      with ((Diff.Del, x)
            :: (map (pair Diff.Del) (x2 :: xs) ++ map (pair Diff.Ins) ys)).
    cbn [Diff.coalesce]. rewrite IH by discriminate.
    cbn [Diff.opOf Diff.changeOf Diff.removed Diff.added Diff.Op_eqb Diff.value].
    now rewrite (join_cons x).
Qed.

Lemma keeps_cons (o : Diff.Op) (t : string) (script : list (Diff.Op * string)) :
  Diff.keeps ((o, t) :: script)
  = (if Diff.Op_eqb o Diff.Keep then 1 else 0) + Diff.keeps script.
Proof. unfold Diff.keeps. cbn [filter fst]. now destruct (Diff.Op_eqb o Diff.Keep). Qed.

Lemma keeps_unrelated (xs ys : list string) :
  Diff.keeps (map (pair Diff.Del) xs ++ map (pair Diff.Ins) ys) = 0.
Proof.
  induction xs as [|x xs IH]; [|exact IH].
  induction ys as [|y ys IH]; [reflexivity | exact IH].
Qed.

(** Token sequences without a common token: everything old is deleted,
    then everything new is inserted. *)
Lemma align_disjoint (xs ys : list string) :
  (forall t, In t xs -> ~ In t ys) ->
  Diff.align xs ys = map (pair Diff.Del) xs ++ map (pair Diff.Ins) ys.
Proof.
  revert xs ys. apply (align_ind (fun xs ys =>
    (forall t, In t xs -> ~ In t ys) ->
    Diff.align xs ys = map (pair Diff.Del) xs ++ map (pair Diff.Ins) ys)).
  - reflexivity.
  - intros x xs _. now rewrite align_nil_r, app_nil_r.
  - intros x xs y ys _ IH2 IH3 H. rewrite align_cons_cons.
    destruct (String.eqb_spec x y) as [->|_].
    + exfalso. apply (H y); now left.
    + rewrite IH2, IH3.
      * now rewrite !keeps_unrelated.
      * intros t Ht Hin. apply (H t Ht). now right.
      * intros t Ht. apply H. now right.
Qed.

Lemma tokenize_not_nil (s : string) : s <> "" -> Diff.tokenize s <> [].
Proof. destruct s as [|c rest]; [congruence | intros _; apply tokenize_nonempty]. Qed.

(** C5. [calculateDiffs] on two empty texts returns the empty sequence,
    whose clean text is empty; on a text A and itself it returns chunks
    that are all [unchanged] and whose values concatenate to A, namely the
    single chunk holding A when A is not empty. *)
Theorem calculateDiffs_identity (rng : Rng) :
  fst (calculateDiffs Diff.diffWords rng "" "") = []
  /\ getCleanText (fst (calculateDiffs Diff.diffWords rng "" "")) = ""
  /\ forall A : string,
       let C := fst (calculateDiffs Diff.diffWords rng A A) in
       Forall (fun chunk => type chunk = unchanged) C
       /\ join "" (map value C) = A
       /\ (A <> "" -> C = [mkDiffChunk (fst (generateId rng)) A unchanged 0]).
Proof.
  split; [reflexivity|]. split; [reflexivity|].
  intro A. cbv zeta. unfold calculateDiffs, Diff.diffWords.
  rewrite align_refl.
  destruct A as [|c rest]; [repeat split; [constructor | congruence]|].
  rewrite coalesce_same by apply tokenize_nonempty.
  rewrite tokenize_join. cbn [mapParts chunkOf Diff.changeOf Diff.added
    Diff.removed Diff.value generateId fst].
  repeat split. repeat constructor.
Qed.

Lemma calculateDiffs_identity_witness :
  fst (calculateDiffs Diff.diffWords rngSample "Hello world" "Hello world")
  = [mkDiffChunk "4fzyo82mv" "Hello world" unchanged 0].
Proof.
  apply (proj2 (proj2 (proj2 (proj2
    (calculateDiffs_identity rngSample)) "Hello world"))).
  discriminate.
Defined.

(* ================================================================== *)
(** ** Removed before added *)

Lemma removedBeforeAdded_cons (t : ChangeType) (rest : list ChangeType) :
  removedBeforeAdded (t :: rest)
  = negb (ChangeType_eqb t added && startsRemoved rest)
    && removedBeforeAdded rest.
Proof. destruct t, rest as [|[] rest]; reflexivity. Qed.

Lemma runs_starts (l : list ChangeType) :
  startsRemoved (runs l) = startsRemoved l.
Proof.
  destruct l as [|t rest]; [reflexivity|]. cbn [runs].
  destruct (runs rest) as [|u us]; [reflexivity|].
  destruct t, u; reflexivity.
Qed.

(** Collapsing runs keeps removals before additions. *)
Lemma removedBeforeAdded_runs (l : list ChangeType) :
  removedBeforeAdded l = true -> removedBeforeAdded (runs l) = true.
Proof.
  induction l as [|t rest IH]; [reflexivity|].
  rewrite removedBeforeAdded_cons. intro H.
  apply andb_true_iff in H. destruct H as [Hhead Hrest].
  specialize (IH Hrest). cbn [runs].
  pose proof (runs_starts rest) as Hs.
  destruct (runs rest) as [|u us]; [now destruct t|].
  destruct (ChangeType_eqb t u); [exact IH|].
  rewrite removedBeforeAdded_cons, Hs, Hhead. exact IH.
Qed.

Lemma ChangeType_eqb_typeOfOp (a b : Diff.Op) :
  ChangeType_eqb (typeOfOp a) (typeOfOp b) = Diff.Op_eqb a b.
Proof. destruct a, b; reflexivity. Qed.

(** The types of the coalesced change objects are the runs of the script. *)
Lemma coalesce_types (script : list (Diff.Op * string)) :
  map (fun c => typeOfOp (Diff.opOf c)) (Diff.coalesce script)
  = runs (scriptTypes script).
Proof.
  unfold scriptTypes.
  induction script as [|[o t] rest IH]; [reflexivity|].
  cbn [Diff.coalesce map runs fst]. rewrite <- IH.
  destruct (Diff.coalesce rest) as [|c cs]; cbn [map].
  - now rewrite opOf_changeOf.
  - rewrite ChangeType_eqb_typeOfOp.
    destruct (Diff.Op_eqb o (Diff.opOf c)) eqn:E; cbn [map].
    + apply Op_eqb_eq in E. subst o. now rewrite opOf_changeOf.
    + now rewrite opOf_changeOf.
Qed.

Lemma keeps_align_cons_cons (x y : string) (xs ys : list string) :
  Diff.keeps (Diff.align (x :: xs) (y :: ys))
  = if String.eqb x y then S (Diff.keeps (Diff.align xs ys))
    else Nat.max (Diff.keeps (Diff.align xs (y :: ys)))
                 (Diff.keeps (Diff.align (x :: xs) ys)).
Proof.
  rewrite align_cons_cons. destruct (String.eqb x y).
  - now rewrite keeps_cons.
  - destruct (Nat.leb_spec (Diff.keeps (Diff.align (x :: xs) ys))
                           (Diff.keeps (Diff.align xs (y :: ys))));
      rewrite keeps_cons; cbn [Diff.Op_eqb]; lia.
Qed.

Lemma keeps_align_nil_r (xs : list string) : Diff.keeps (Diff.align xs []) = 0.
Proof.
  rewrite align_nil_r, <- (app_nil_r (map _ xs)).
  apply (keeps_unrelated xs []).
Qed.

(** One more old token adds at most one kept token, provided a new token
    never costs one. *)
Lemma keeps_step (xs : list string) :
  (forall ys y, Diff.keeps (Diff.align xs ys)
                <= Diff.keeps (Diff.align xs (y :: ys))) ->
  forall ys x, Diff.keeps (Diff.align (x :: xs) ys)
               <= S (Diff.keeps (Diff.align xs ys)).
Proof.
  intros Hmono ys x. induction ys as [|y ys IH].
  - rewrite keeps_align_nil_r. lia.
  - rewrite keeps_align_cons_cons. specialize (Hmono ys y).
    destruct (String.eqb x y); lia.
Qed.

(** A further new token never lowers the number of kept tokens. *)
Lemma keeps_mono (xs : list string) :
  forall ys y, Diff.keeps (Diff.align xs ys)
               <= Diff.keeps (Diff.align xs (y :: ys)).
Proof.
  induction xs as [|x xs IH]; intros ys y.
  - change (Diff.keeps (map (pair Diff.Del) [] ++ map (pair Diff.Ins) ys)
            <= Diff.keeps (map (pair Diff.Del) []
                           ++ map (pair Diff.Ins) (y :: ys))).
    rewrite !keeps_unrelated. lia.
  - rewrite keeps_align_cons_cons.
    pose proof (keeps_step xs IH ys x).
    destruct (String.eqb x y); lia.
Qed.

Lemma align_head_Del (xs ys : list string) (t : string)
  (rest : list (Diff.Op * string)) :
  Diff.align xs ys = (Diff.Del, t) :: rest ->
  exists xs', xs = t :: xs' /\ rest = Diff.align xs' ys.
Proof.
  destruct xs as [|x xs].
  - destruct ys; discriminate.
  - destruct ys as [|y ys].
    + rewrite align_nil_r. cbn [map]. intros [= <- <-].
      exists xs. now rewrite align_nil_r.
    + rewrite align_cons_cons.
      destruct (String.eqb x y); [discriminate|].
      destruct (_ <=? _); [|discriminate].
      intros [= <- <-]. now exists xs.
Qed.

Lemma scriptTypes_all_added (ys : list string) :
  removedBeforeAdded (scriptTypes (map (pair Diff.Ins) ys)) = true.
Proof.
  induction ys as [|y ys IH]; [reflexivity|].
  unfold scriptTypes in *. cbn [map fst typeOfOp].
  rewrite removedBeforeAdded_cons, IH. now destruct ys.
Qed.

Lemma scriptTypes_all_removed (xs : list string) :
  removedBeforeAdded (scriptTypes (map (pair Diff.Del) xs)) = true.
Proof.
  induction xs as [|x xs IH]; [reflexivity|].
  unfold scriptTypes in *. cbn [map fst typeOfOp].
  now rewrite removedBeforeAdded_cons, IH.
Qed.

(** In the script an insertion is never directly followed by a deletion:
    the alignment would have deleted first. *)
Lemma align_ordered (xs ys : list string) :
  removedBeforeAdded (scriptTypes (Diff.align xs ys)) = true.
Proof.
  revert xs ys. apply align_ind.
  - intro ys. apply scriptTypes_all_added.
  - intros x xs. rewrite align_nil_r. apply scriptTypes_all_removed.
  - intros x xs y ys IH1 IH2 IH3. rewrite align_cons_cons.
    destruct (String.eqb x y); [exact IH1|].
    destruct (Nat.leb_spec (Diff.keeps (Diff.align (x :: xs) ys))
                           (Diff.keeps (Diff.align xs (y :: ys))))
      as [_|Hlt]; [exact IH2|].
    unfold scriptTypes in *. cbn [map fst typeOfOp].
    rewrite removedBeforeAdded_cons, IH3, andb_true_r.
    cbn [ChangeType_eqb andb].
    destruct (Diff.align (x :: xs) ys) as [|[[] t] rest] eqn:E;
      try reflexivity.
    exfalso.
    destruct (align_head_Del _ _ _ _ E) as [xs' [[= <- <-] ->]].
    rewrite keeps_cons in Hlt. cbn [Diff.Op_eqb] in Hlt.
    pose proof (keeps_mono xs ys y). lia.
Qed.

Lemma mapParts_types (parts : list Diff.Change) :
  forall index rng,
    map type (fst (mapParts parts index rng))
    = map (fun part => typeOfOp (Diff.opOf part)) parts.
Proof.
  induction parts as [|part rest IH]; intros index rng; [reflexivity|].
  rewrite mapParts_cons, chunkOf_fst. cbn [map type].
  now rewrite IH, typeOfPart_opOf.
Qed.

Lemma disjointWords_disjointTokens (a b : string) :
  disjointWords a b -> disjointTokens a b.
Proof.
  intros H t Ha Hb. apply (H (wordOf t)); unfold words; now apply in_map.
Qed.

(** C2. In the chunks of [calculateDiffs] no [added] chunk is directly
    followed by a [removed] one, so within a run of changes the removed
    content comes first.  For two non-empty texts without a common token,
    and so for two non-empty texts without a common word, the result is
    the [removed] chunk holding the whole original followed by the [added]
    chunk holding the whole revised text.  For "A B C" against "A X C" the
    result is unchanged "A ", removed "B ", added "X ", unchanged "C". *)
Theorem calculateDiffs_removed_before_added (rng : Rng) :
  (forall A B : string,
     removedBeforeAdded
       (map type (fst (calculateDiffs Diff.diffWords rng A B))) = true)
  /\ (forall A B : string,
        A <> "" -> B <> "" -> disjointTokens A B ->
        shape (fst (calculateDiffs Diff.diffWords rng A B))
        = [(A, removed); (B, added)])
  /\ (forall A B : string,
        A <> "" -> B <> "" -> disjointWords A B ->
        shape (fst (calculateDiffs Diff.diffWords rng A B))
        = [(A, removed); (B, added)])
  /\ shape (fst (calculateDiffs Diff.diffWords rng "A B C" "A X C"))
     = [("A ", unchanged); ("B ", removed); ("X ", added); ("C", unchanged)].
Proof.
  assert (Hdisjoint : forall A B : string,
    A <> "" -> B <> "" -> disjointTokens A B ->
    shape (fst (calculateDiffs Diff.diffWords rng A B))
    = [(A, removed); (B, added)]).
  { intros A B HA HB Hdis. unfold calculateDiffs, Diff.diffWords.
    rewrite mapParts_shape, (align_disjoint _ _ Hdis).
    rewrite coalesce_two by now apply tokenize_not_nil.
    now rewrite !tokenize_join. }
  split; [|split; [|split]].
  - intros A B. unfold calculateDiffs, Diff.diffWords.
    rewrite mapParts_types, coalesce_types.
    apply removedBeforeAdded_runs, align_ordered.
  - exact Hdisjoint.
  - intros A B HA HB Hdis.
    now apply Hdisjoint, disjointWords_disjointTokens.
  - unfold calculateDiffs. rewrite mapParts_shape. reflexivity.
Qed.

Lemma calculateDiffs_removed_before_added_witness :
  shape (fst (calculateDiffs Diff.diffWords rngSample "Hello world" "Good bye"))
  = [("Hello world", removed); ("Good bye", added)].
Proof.
  apply (proj1 (proj2 (proj2 (calculateDiffs_removed_before_added rngSample)))).
  - discriminate.
  - discriminate.
  - intros w Hw Hb. vm_compute in Hw, Hb.
    destruct Hw as [<-|[<-|[]]]; destruct Hb as [H|[H|[]]]; discriminate H.
Defined.

(* ================================================================== *)
(** ** The revision wrapper *)

Import GeminiService.

Lemma trimStart_blank (s : string) : allWhiteSpace s = true -> trimStart s = "".
Proof.
  induction s as [|c rest IH]; [reflexivity|].
  cbn [allWhiteSpace trimStart]. intro H.
  apply andb_true_iff in H. destruct H as [Hc Hrest].
  rewrite Hc. now apply IH.
Qed.

Lemma trim_blank (s : string) : allWhiteSpace s = true -> trim s = "".
Proof. intro H. unfold trim. now rewrite trimStart_blank. Qed.

Lemma trimStart_not_blank (s : string) :
  allWhiteSpace s = false ->
  exists c rest, trimStart s = String c rest /\ isWhiteSpace c = false.
Proof.
  induction s as [|c rest IH]; [discriminate|].
  cbn [allWhiteSpace trimStart].
  destruct (isWhiteSpace c) eqn:Hc; [exact IH|].
  intros _. now exists c, rest.
Qed.

Lemma trimEnd_keeps_head (c : ascii) (rest : string) :
  isWhiteSpace c = false -> exists t, trimEnd (String c rest) = String c t.
Proof.
  intro Hc. cbn [trimEnd]. rewrite Hc.
  destruct (trimEnd rest) as [|d t]; eexists; reflexivity.
Qed.

Lemma trim_not_blank (s : string) :
  allWhiteSpace s = false -> exists c t, trim s = String c t.
Proof.
  intro H. destruct (trimStart_not_blank s H) as [c [rest [E Hc]]].
  unfold trim. rewrite E.
  destruct (trimEnd_keeps_head c rest Hc) as [t Et].
  now exists c, t.
Qed.

(** On blank input the wrapper is the bare return of the empty text. *)
Lemma improveText_blank (text : string) :
  allWhiteSpace text = true -> improveText text = Return "".
Proof.
  intro H. unfold improveText. rewrite (trim_blank text H).
  now rewrite orb_true_r.
Qed.

Lemma improveText_guard (text : string) :
  allWhiteSpace text = false ->
  String.eqb text "" || (String.length (trim text) =? 0) = false.
Proof.
  intro H. destruct (trim_not_blank text H) as [c [t E]]. rewrite E.
  destruct text; [discriminate H | reflexivity].
Qed.

(** A rejected remote call is logged and thrown again. *)
Lemma run_improveText_rejected (service : GenerateContentParameters -> Settled)
  (text : string) (e : Error) :
  allWhiteSpace text = false ->
  service (improveRequest text) = Rejected e ->
  run service (improveText text)
  = (Thrown e, [RemoteCall (improveRequest text);
                Logged "Error calling Gemini API:" e]).
Proof.
  intros Hb Hs. unfold improveText. rewrite (improveText_guard text Hb).
  unfold generateContent. cbn [bind tryCatch run]. rewrite Hs. reflexivity.
Qed.

(** A fulfilled remote call gives the trimmed response text, or the input
    when that text is absent or blank. *)
Lemma run_improveText_fulfilled (service : GenerateContentParameters -> Settled)
  (text : string) (response : GenerateContentResponse) :
  allWhiteSpace text = false ->
  service (improveRequest text) = Fulfilled response ->
  run service (improveText text)
  = (Returned (orElse (option_map trim (response_text response)) text),
     [RemoteCall (improveRequest text)]).
Proof.
  intros Hb Hs. unfold improveText. rewrite (improveText_guard text Hb).
  unfold generateContent. cbn [bind tryCatch run]. rewrite Hs. reflexivity.
Qed.

(** C9, as stated, fails: when the remote call is rejected, [improveText]
    does not return the input text; it throws the error it caught. *)
Lemma improveText_rethrows_failure :
  fst (run (failingService "503") (improveText "hello")) = Thrown "503"
  /\ fst (run (failingService "503") (improveText "hello")) <> Returned "hello".
Proof. split; [reflexivity | discriminate]. Qed.

(** C9, amended. Given empty or white-space-only input [improveText]
    returns the empty text without a remote call.  On any other input it
    makes one remote call; when that call fails it logs the error and
    throws it to the caller; when the call succeeds it returns the trimmed
    response text, or the input text unchanged when the response text is
    absent or blank. *)
Theorem improveText_contract (service : GenerateContentParameters -> Settled)
  (text : string) :
  (allWhiteSpace text = true ->
     improveText text = Return ""
     /\ run service (improveText text) = (Returned "", []))
  /\ (allWhiteSpace text = false ->
      forall e, service (improveRequest text) = Rejected e ->
        run service (improveText text)
        = (Thrown e, [RemoteCall (improveRequest text);
                      Logged "Error calling Gemini API:" e]))
  /\ (allWhiteSpace text = false ->
      forall response, service (improveRequest text) = Fulfilled response ->
        run service (improveText text)
        = (Returned
             match response_text response with
             | None => text
             | Some t => if allWhiteSpace t then text else trim t
             end,
           [RemoteCall (improveRequest text)])).
Proof.
  split; [|split].
  - intro H. rewrite (improveText_blank text H). split; reflexivity.
  - intros H e Hs. now apply run_improveText_rejected.
  - intros H response Hs.
    rewrite (run_improveText_fulfilled service text response H Hs).
    do 2 f_equal.
    destruct (response_text response) as [t|]; [|reflexivity].
    cbn [option_map]. destruct (allWhiteSpace t) eqn:Ht.
    + now rewrite (trim_blank t Ht).
    + destruct (trim_not_blank t Ht) as [c [r ->]]. reflexivity.
Qed.

Lemma improveText_contract_witness :
  (improveText "  " = Return ""
   /\ run (failingService "503") (improveText "  ") = (Returned "", []))
  /\ run (failingService "503") (improveText "hello")
     = (Thrown "503", [RemoteCall (improveRequest "hello");
                       Logged "Error calling Gemini API:" "503"])
  /\ run (answeringService (Some " ")) (improveText "hello")
     = (Returned "hello", [RemoteCall (improveRequest "hello")])
  /\ run (answeringService (Some " Hello there. ")) (improveText "hello")
     = (Returned "Hello there.", [RemoteCall (improveRequest "hello")]).
Proof.
  split; [|split; [|split]].
  - apply (proj1 (improveText_contract (failingService "503") "  ")).
    reflexivity.
  - apply (proj1 (proj2 (improveText_contract (failingService "503") "hello")));
      reflexivity.
  - apply (proj2 (proj2
      (improveText_contract (answeringService (Some " ")) "hello"))
      eq_refl (mkResponse (Some " ")) eq_refl).
  - apply (proj2 (proj2
      (improveText_contract (answeringService (Some " Hello there. ")) "hello"))
      eq_refl (mkResponse (Some " Hello there. ")) eq_refl).
Defined.

(* ================================================================== *)
(** ** The explanation wrapper *)

Import GeminiExplain.

Lemma orElse_nonempty (a : option string) (b : string) :
  b <> "" -> orElse a b <> "".
Proof. intro Hb. destruct a as [[|c s]|]; simpl; congruence. Qed.

Lemma explainChanges_guard_false (original revised : string) :
  original <> "" -> revised <> "" ->
  String.eqb original "" || String.eqb revised "" = false.
Proof.
  intros Ho Hr. apply orb_false_iff.
  split; now apply String.eqb_neq.
Qed.

Lemma run_explainChanges_call
  (service : GenerateContentParameters -> Settled) (original revised : string) :
  original <> "" -> revised <> "" ->
  run service (explainChanges original revised)
  = match service (explainRequest original revised) with
    | Fulfilled response =>
        (Returned (orElse (option_map trim (response_text response))
                     explainDefault),
         [RemoteCall (explainRequest original revised)])
    | Rejected e =>
        (Returned explainFallback,
         [RemoteCall (explainRequest original revised);
          Logged "Error explaining changes:" e])
    end.
Proof.
  intros Ho Hr. unfold explainChanges.
  rewrite (explainChanges_guard_false _ _ Ho Hr).
  unfold generateContent. cbn [bind tryCatch run].
  destruct (service (explainRequest original revised)); reflexivity.
Qed.

Lemma run_explainChanges_empty
  (service : GenerateContentParameters -> Settled) (original revised : string) :
  original = "" \/ revised = "" ->
  run service (explainChanges original revised) = (Returned "", []).
Proof.
  intro H. unfold explainChanges.
  replace (String.eqb original "" || String.eqb revised "") with true;
    [reflexivity|].
  symmetry. apply orb_true_iff.
  destruct H as [-> | ->]; [left | right]; reflexivity.
Qed.

(** X1. [explainChanges] never throws, whatever the remote service does,
    and for two non-empty texts the explanation it returns is not empty. *)
Theorem explainChanges_never_throws
  (service : GenerateContentParameters -> Settled) (original revised : string) :
  exists s trace,
    run service (explainChanges original revised) = (Returned s, trace)
    /\ (original <> "" -> revised <> "" -> s <> "").
Proof.
  destruct (string_dec original "") as [Ho|Ho];
    [|destruct (string_dec revised "") as [Hr|Hr]].
  - exists "", []. split; [apply run_explainChanges_empty; now left|].
    intros H. now elim H.
  - exists "", []. split; [apply run_explainChanges_empty; now right|].
    intros _ H. now elim H.
  - rewrite (run_explainChanges_call service _ _ Ho Hr).
    destruct (service (explainRequest original revised)) as [response|e].
    + eexists _, _. split; [reflexivity|]. intros _ _.
      apply orElse_nonempty. discriminate.
    + eexists _, _. split; [reflexivity|]. intros _ _. discriminate.
Qed.

Lemma explainChanges_never_throws_witness :
  exists s trace,
    run (failingService "503") (explainChanges "old text" "new text")
    = (Returned s, trace)
    /\ s <> "".
Proof.
  destruct (explainChanges_never_throws (failingService "503")
              "old text" "new text") as [s [trace [E H]]].
  exists s, trace. split; [exact E|].
  apply H; discriminate.
Defined.

(** X2. [explainChanges] skips the remote call exactly when one of the two
    texts is empty, and then returns the empty text; white-space-only
    texts are sent to the service. *)
Theorem explainChanges_calls_unless_empty
  (service : GenerateContentParameters -> Settled) (original revised : string) :
  (remoteCallCount (snd (run service (explainChanges original revised))) = 0
   <-> original = "" \/ revised = "")
  /\ (original = "" \/ revised = "" ->
      run service (explainChanges original revised) = (Returned "", []))
  /\ (original <> "" -> revised <> "" ->
      remoteCallCount (snd (run service (explainChanges original revised))) = 1).
Proof.
  assert (Hcall : original <> "" -> revised <> "" ->
    remoteCallCount (snd (run service (explainChanges original revised))) = 1).
  { intros Ho Hr. rewrite (run_explainChanges_call service _ _ Ho Hr).
    destruct (service (explainRequest original revised)); reflexivity. }
  split; [|split].
  - split.
    + intro H.
      destruct (string_dec original "") as [Ho|Ho]; [now left|].
      destruct (string_dec revised "") as [Hr|Hr]; [now right|].
      rewrite (Hcall Ho Hr) in H. discriminate H.
    + intro H. now rewrite (run_explainChanges_empty service _ _ H).
  - apply run_explainChanges_empty.
  - exact Hcall.
Qed.

Lemma explainChanges_calls_unless_empty_witness :
  run (failingService "503") (explainChanges "" "new text") = (Returned "", [])
  /\ remoteCallCount
       (snd (run (failingService "503") (explainChanges " " " "))) = 1.
Proof.
  split.
  - apply (proj1 (proj2 (explainChanges_calls_unless_empty
      (failingService "503") "" "new text"))). now left.
  - apply (proj2 (proj2 (explainChanges_calls_unless_empty
      (failingService "503") " " " "))); discriminate.
Defined.

(** X3. For two non-empty texts: when the remote call fails
    [explainChanges] logs the error and returns its fixed fallback text;
    when the call succeeds without text, or with blank text, it returns
    its fixed default text; otherwise it returns the trimmed response. *)
Theorem explainChanges_results
  (service : GenerateContentParameters -> Settled) (original revised : string) :
  original <> "" -> revised <> "" ->
  (forall e, service (explainRequest original revised) = Rejected e ->
     run service (explainChanges original revised)
     = (Returned explainFallback,
        [RemoteCall (explainRequest original revised);
         Logged "Error explaining changes:" e]))
  /\ (forall response,
        service (explainRequest original revised) = Fulfilled response ->
        fst (run service (explainChanges original revised))
        = Returned
            match response_text response with
            | None => explainDefault
            | Some t => if allWhiteSpace t then explainDefault else trim t
            end).
Proof.
  intros Ho Hr. rewrite (run_explainChanges_call service _ _ Ho Hr).
  split.
  - intros e ->. reflexivity.
  - intros response ->. cbn [fst]. f_equal.
    destruct (response_text response) as [t|]; [|reflexivity].
    cbn [option_map]. destruct (allWhiteSpace t) eqn:Ht.
    + now rewrite (trim_blank t Ht).
    + destruct (trim_not_blank t Ht) as [c [r ->]]. reflexivity.
Qed.

Lemma explainChanges_results_witness :
  run (failingService "503") (explainChanges "old text" "new text")
  = (Returned explainFallback,
     [RemoteCall (explainRequest "old text" "new text");
      Logged "Error explaining changes:" "503"])
  /\ fst (run (answeringService (Some " Shorter. "))
            (explainChanges "old text" "new text"))
     = Returned "Shorter.".
Proof.
  split.
  - apply (proj1 (explainChanges_results (failingService "503")
      "old text" "new text" ltac:(discriminate) ltac:(discriminate))).
    reflexivity.
  - apply (proj2 (explainChanges_results (answeringService (Some " Shorter. "))
      "old text" "new text" ltac:(discriminate) ltac:(discriminate))
      (mkResponse (Some " Shorter. "))).
    reflexivity.
Defined.

(* ================================================================== *)
(** ** More on the revision wrapper *)

Lemma trim_head (t : string) (c : ascii) (r : string) :
  trim t = String c r -> isWhiteSpace c = false.
Proof.
  intro E. destruct (allWhiteSpace t) eqn:Ht.
  - rewrite (trim_blank t Ht) in E. discriminate E.
  - destruct (trimStart_not_blank t Ht) as [c' [rest [Es Hc]]].
    unfold trim in E. rewrite Es in E.
    destruct (trimEnd_keeps_head c' rest Hc) as [t' Et].
    rewrite Et in E. now injection E as <- _.
Qed.

Lemma orElse_trim_not_blank (t : option string) (text : string) :
  allWhiteSpace text = false ->
  allWhiteSpace (orElse (option_map trim t) text) = false.
Proof.
  intro Hb. destruct t as [t|]; [|exact Hb].
  cbn [option_map]. destruct (trim t) as [|c r] eqn:Et; [exact Hb|].
  cbn [orElse allWhiteSpace]. now rewrite (trim_head t c r Et).
Qed.

(** X4. [improveText] makes at most one remote call; given a text that is
    not blank it throws or returns a text that is not blank, so a
    successful revision never empties the revised pane. *)
Theorem improveText_never_blanks
  (service : GenerateContentParameters -> Settled) (text : string) :
  remoteCallCount (snd (run service (improveText text))) <= 1
  /\ (allWhiteSpace text = false ->
      (exists e, fst (run service (improveText text)) = Thrown e)
      \/ (exists s, fst (run service (improveText text)) = Returned s
                    /\ allWhiteSpace s = false)).
Proof.
  destruct (allWhiteSpace text) eqn:Hb.
  - rewrite (improveText_blank text Hb). split; [apply Nat.le_0_l|].
    discriminate.
  - destruct (service (improveRequest text)) as [response|e] eqn:Hs.
    + rewrite (run_improveText_fulfilled service text response Hb Hs).
      split; [apply le_n|]. intros _. right. eexists. split; [reflexivity|].
      now apply orElse_trim_not_blank.
    + rewrite (run_improveText_rejected service text e Hb Hs).
      split; [apply le_n|]. intros _. left. now exists e.
Qed.

Lemma improveText_never_blanks_witness :
  (exists e, fst (run (answeringService (Some "  "))
                    (improveText "hello")) = Thrown e)
  \/ (exists s, fst (run (answeringService (Some "  "))
                       (improveText "hello")) = Returned s
                /\ allWhiteSpace s = false).
Proof.
  apply (proj2 (improveText_never_blanks (answeringService (Some "  "))
                  "hello")).
  reflexivity.
Defined.

(* ================================================================== *)
(** ** The two text panes *)

Import App.

Lemma last_cons_default (v d : string) (vs : list string) :
  last (v :: vs) d = last vs v.
Proof.
  revert v d. induction vs as [|w vs IH]; intros v d; [reflexivity|].
  change (last (v :: w :: vs) d) with (last (w :: vs) d).
  now rewrite (IH w d), (IH w v).
Qed.

Lemma firstNonEmpty_cons (v : string) (vs : list string) :
  firstNonEmpty (v :: vs) = if String.eqb v "" then firstNonEmpty vs else v.
Proof. unfold firstNonEmpty. cbn [filter]. now destruct (String.eqb v ""). Qed.

Lemma handleOriginalChange_fields (v : string) (st : AppState) :
  originalText (handleOriginalChange v st) = v
  /\ isRevisedDirty (handleOriginalChange v st) = isRevisedDirty st
  /\ revisedText (handleOriginalChange v st)
     = if negb (isRevisedDirty st) && String.eqb (revisedText st) ""
       then v else revisedText st.
Proof.
  unfold handleOriginalChange.
  destruct (negb (isRevisedDirty st) && String.eqb (revisedText st) "");
    split; try split; reflexivity.
Qed.

(** What a run of changes of the original text does to a state. *)
Lemma steps_original_changes (vs : list string) :
  forall st,
    let st' := steps (map OriginalChange vs) st in
    originalText st' = last vs (originalText st)
    /\ isRevisedDirty st' = isRevisedDirty st
    /\ revisedText st'
       = if isRevisedDirty st then revisedText st
         else if String.eqb (revisedText st) "" then firstNonEmpty vs
         else revisedText st.
Proof.
  induction vs as [|v vs IH]; intro st; cbv zeta.
  - cbn [map steps fold_left last firstNonEmpty filter hd].
    split; [reflexivity|]. split; [reflexivity|].
    destruct (isRevisedDirty st); [reflexivity|].
    destruct (String.eqb_spec (revisedText st) ""); congruence.
  - change (steps (map OriginalChange (v :: vs)) st)
      with (steps (map OriginalChange vs) (handleOriginalChange v st)).
    destruct (IH (handleOriginalChange v st)) as [Ho [Hd Hr]].
    destruct (handleOriginalChange_fields v st) as [Fo [Fd Fr]].
    rewrite Ho, Hd, Hr, Fo, Fd, Fr, last_cons_default, firstNonEmpty_cons.
    split; [reflexivity|]. split; [reflexivity|].
    destruct (isRevisedDirty st); cbn [negb andb]; [reflexivity|].
    destruct (String.eqb_spec (revisedText st) "") as [Er|Er].
    + destruct (String.eqb_spec v ""); reflexivity.
    + destruct (String.eqb_spec (revisedText st) ""); congruence.
Qed.

(** X5. Starting from the initial state, while only the original text is
    edited, the revised text is the first non-empty value the original
    text took: the copy is made once and does not follow later edits.
    The original text is the last value and the revised pane stays
    clean. *)
Theorem original_edits_mirror_once (vs : list string) :
  let st := steps (map OriginalChange vs) initialState in
  originalText st = last vs ""
  /\ revisedText st = firstNonEmpty vs
  /\ isRevisedDirty st = false.
Proof.
  destruct (steps_original_changes vs initialState) as [Ho [Hd Hr]].
  cbv zeta. rewrite Ho, Hd, Hr. repeat split.
Qed.

(** X6. Once the revised pane is dirty it stays dirty under every action
    but [Reset], and the revised text is what the user last gave that
    pane: edits of the original text never reach it. *)
Theorem dirty_revised_is_protected (actions : list Action) :
  forall st,
    forallb (fun a => negb (isReset a)) actions = true ->
    isRevisedDirty st = true ->
    isRevisedDirty (steps actions st) = true
    /\ revisedText (steps actions st) = lastRevised actions (revisedText st)
    /\ originalText (steps actions st)
       = lastOriginal actions (originalText st).
Proof.
  induction actions as [|a actions IH]; intros st Hnr Hd.
  - repeat split. exact Hd.
  - cbn [forallb] in Hnr. apply andb_true_iff in Hnr.
    destruct Hnr as [Ha Hrest].
    change (steps (a :: actions) st) with (steps actions (step a st)).
    assert (Hstep : isRevisedDirty (step a st) = true
                    /\ lastRevised (a :: actions) (revisedText st)
                       = lastRevised actions (revisedText (step a st))
                    /\ lastOriginal (a :: actions) (originalText st)
                       = lastOriginal actions (originalText (step a st))).
    { destruct a; try discriminate Ha; cbn [step lastRevised lastOriginal].
      - unfold handleOriginalChange. rewrite Hd. cbn. now rewrite Hd.
      - cbn. repeat split.
      - cbn. now rewrite Hd.
      - cbn. repeat split. }
    destruct Hstep as [Hd' [Er Eo]].
    destruct (IH (step a st) Hrest Hd') as [H1 [H2 H3]].
    now rewrite H1, H2, H3, Er, Eo.
Qed.

Lemma dirty_revised_is_protected_witness :
  revisedText
    (steps [OriginalChange "one"; ClearOriginal; OriginalChange "two"]
       (handleRevisedChange "mine" initialState))
  = "mine".
Proof.
  apply (proj1 (proj2 (dirty_revised_is_protected
    [OriginalChange "one"; ClearOriginal; OriginalChange "two"]
    (handleRevisedChange "mine" initialState) eq_refl eq_refl))).
Defined.

Lemma steps_app (l1 l2 : list Action) (st : AppState) :
  steps (l1 ++ l2) st = steps l2 (steps l1 st).
Proof. apply fold_left_app. Qed.

(** X7. Whatever was done before, after [Reset] the next value of the
    original text is copied to the revised text and the revised pane is
    clean again; [Reset] leaves the email preview and the loading flags
    as they were. *)
Theorem reset_restores_mirroring (actions : list Action) (st : AppState)
  (v : string) :
  let st' := steps (actions ++ [Reset; OriginalChange v]) st in
  originalText st' = v /\ revisedText st' = v /\ isRevisedDirty st' = false
  /\ emailPreviewHtml st' = emailPreviewHtml (steps actions st)
  /\ emailPreviewPlain st' = emailPreviewPlain (steps actions st)
  /\ isAiLoading st' = isAiLoading (steps actions st).
Proof.
  cbv zeta. rewrite steps_app.
  generalize (steps actions st). intro s. repeat split.
Qed.

(* ================================================================== *)
(** ** [handleGenerateRevision] *)

Lemma handleGenerateRevision_empty
  (service : GenerateContentParameters -> Settled) (st : AppState) :
  originalText st = "" -> handleGenerateRevision service st = (st, []).
Proof. intro H. unfold handleGenerateRevision. now rewrite H. Qed.

Lemma handleGenerateRevision_run
  (service : GenerateContentParameters -> Settled) (st : AppState) :
  originalText st <> "" ->
  handleGenerateRevision service st
  = match run service (improveText (originalText st)) with
    | (Returned improved, trace) =>
        (setIsAiLoading false
           (setIsRevisedDirty true
              (setRevisedText improved (setIsAiLoading true st))),
         map ServiceEvent trace)
    | (Thrown _, trace) =>
        (setIsAiLoading false (setIsAiLoading true st),
         map ServiceEvent trace
         ++ [Alert "Failed to generate revision. Please check your API key or connection."])
    end.
Proof.
  intro H. unfold handleGenerateRevision.
  apply String.eqb_neq in H. rewrite H.
  destruct (run service (improveText (originalText st))) as [[s|e] trace];
    reflexivity.
Qed.

(** X8. [handleGenerateRevision] never changes the original text and,
    when the original text is not empty, always ends with the loading
    flag off.  When the remote call fails, the revised text and its dirty
    flag are left as they were and the user is alerted, once, after the
    error was logged. *)
Theorem handleGenerateRevision_failure_keeps_texts
  (service : GenerateContentParameters -> Settled) (st : AppState) :
  originalText (fst (handleGenerateRevision service st)) = originalText st
  /\ (originalText st <> "" ->
      isAiLoading (fst (handleGenerateRevision service st)) = false)
  /\ (allWhiteSpace (originalText st) = false ->
      forall e, service (improveRequest (originalText st)) = Rejected e ->
        revisedText (fst (handleGenerateRevision service st)) = revisedText st
        /\ isRevisedDirty (fst (handleGenerateRevision service st))
           = isRevisedDirty st
        /\ snd (handleGenerateRevision service st)
           = [ServiceEvent (RemoteCall (improveRequest (originalText st)));
              ServiceEvent (Logged "Error calling Gemini API:" e);
              Alert "Failed to generate revision. Please check your API key or connection."]).
Proof.
  split; [|split].
  - destruct (string_dec (originalText st) "") as [E|N].
    + now rewrite (handleGenerateRevision_empty service st E).
    + rewrite (handleGenerateRevision_run service st N).
      destruct (run service (improveText (originalText st)))
        as [[s|e] trace]; reflexivity.
  - intro N. rewrite (handleGenerateRevision_run service st N).
    destruct (run service (improveText (originalText st)))
      as [[s|e] trace]; reflexivity.
  - intros Hb e Hs.
    assert (N : originalText st <> "").
    { intro E. rewrite E in Hb. discriminate Hb. }
    rewrite (handleGenerateRevision_run service st N).
    rewrite (run_improveText_rejected service _ e Hb Hs).
    split; [reflexivity|]. split; reflexivity.
Qed.

Lemma handleGenerateRevision_failure_keeps_texts_witness :
  revisedText (fst (handleGenerateRevision (failingService "503")
     (handleRevisedChange "mine" (handleOriginalChange "theirs" initialState))))
  = "mine".
Proof.
  apply (proj1 (proj2 (proj2 (handleGenerateRevision_failure_keeps_texts
    (failingService "503")
    (handleRevisedChange "mine" (handleOriginalChange "theirs" initialState))))
    eq_refl "503" eq_refl)).
Defined.

(** X9. When the remote call succeeds on an original text that is not
    blank, [handleGenerateRevision] puts a text that is not blank into the
    revised pane and marks it dirty.  On an original text that is not
    empty but holds white space only it empties the revised pane and
    marks it dirty, without a remote call and without an alert. *)
Theorem handleGenerateRevision_success
  (service : GenerateContentParameters -> Settled) (st : AppState) :
  (allWhiteSpace (originalText st) = false ->
   forall response,
     service (improveRequest (originalText st)) = Fulfilled response ->
     allWhiteSpace (revisedText (fst (handleGenerateRevision service st)))
     = false
     /\ isRevisedDirty (fst (handleGenerateRevision service st)) = true
     /\ snd (handleGenerateRevision service st)
        = [ServiceEvent (RemoteCall (improveRequest (originalText st)))])
  /\ (originalText st <> "" -> allWhiteSpace (originalText st) = true ->
      revisedText (fst (handleGenerateRevision service st)) = ""
      /\ isRevisedDirty (fst (handleGenerateRevision service st)) = true
      /\ snd (handleGenerateRevision service st) = []).
Proof.
  split.
  - intros Hb response Hs.
    assert (N : originalText st <> "").
    { intro E. rewrite E in Hb. discriminate Hb. }
    rewrite (handleGenerateRevision_run service st N).
    rewrite (run_improveText_fulfilled service _ response Hb Hs).
    cbn [fst snd revisedText isRevisedDirty setIsAiLoading setIsRevisedDirty
         setRevisedText map].
    split; [|split; reflexivity].
    now apply orElse_trim_not_blank.
  - intros N Hb.
    rewrite (handleGenerateRevision_run service st N).
    rewrite (improveText_blank _ Hb).
    split; [reflexivity|]. split; reflexivity.
Qed.

Lemma handleGenerateRevision_success_witness :
  (revisedText (fst (handleGenerateRevision (failingService "503")
     (handleRevisedChange "mine" (handleOriginalChange "  " initialState))))
   = ""
   /\ isRevisedDirty (fst (handleGenerateRevision (failingService "503")
        (handleRevisedChange "mine" (handleOriginalChange "  " initialState))))
      = true
   /\ snd (handleGenerateRevision (failingService "503")
        (handleRevisedChange "mine" (handleOriginalChange "  " initialState)))
      = [])
  /\ allWhiteSpace (revisedText (fst (handleGenerateRevision
       (answeringService (Some " Better. "))
       (handleOriginalChange "good" initialState)))) = false.
Proof.
  split.
  - apply (proj2 (handleGenerateRevision_success (failingService "503")
      (handleRevisedChange "mine" (handleOriginalChange "  " initialState)))).
    + discriminate.
    + reflexivity.
  - apply (proj1 (handleGenerateRevision_success
      (answeringService (Some " Better. "))
      (handleOriginalChange "good" initialState)) eq_refl
      (mkResponse (Some " Better. ")) eq_refl).
Defined.

(* ================================================================== *)
(** ** More on [calculateDiffs] and [getCleanText] *)

Lemma mapParts_rng (parts : list Diff.Change) :
  forall index rng k,
    snd (mapParts parts index rng) k = rng (length parts + k).
Proof.
  induction parts as [|part rest IH]; intros index rng k; [reflexivity|].
  cbn [mapParts].
  destruct (chunkOf part index rng) as [chunk rng1] eqn:E.
  pose proof (chunkOf_snd part index rng) as E1. rewrite E in E1.
  cbn [snd] in E1. subst rng1.
  specialize (IH (S index) (fun k => rng (S k)) k).
  destruct (mapParts rest (S index) (fun k => rng (S k))) as [cs rng2].
  cbn [snd] in *. exact IH.
Qed.

Lemma mapParts_values (parts : list Diff.Change) :
  forall index rng,
    map value (fst (mapParts parts index rng)) = map Diff.value parts.
Proof.
  induction parts as [|part rest IH]; intros index rng; [reflexivity|].
  rewrite mapParts_cons, chunkOf_fst. cbn [map value]. now rewrite IH.
Qed.

(** X10. Apart from the [id] fields, the chunks of [calculateDiffs] do not
    depend on the random draws: two runs on the same texts agree on every
    [value], [type] and [originalIndex], and keep the values of the
    library's change objects one for one.  A run consumes exactly one
    draw per chunk. *)
Theorem calculateDiffs_random_only_in_ids
  (diffWords : string -> string -> list Diff.Change) (rng1 rng2 : Rng)
  (original revised : string) :
  let C1 := fst (calculateDiffs diffWords rng1 original revised) in
  let C2 := fst (calculateDiffs diffWords rng2 original revised) in
  shape C1 = shape C2
  /\ map originalIndex C1 = map originalIndex C2
  /\ map value C1 = map Diff.value (diffWords original revised)
  /\ forall k,
       snd (calculateDiffs diffWords rng1 original revised) k
       = rng1 (length C1 + k).
Proof.
  cbv zeta. unfold calculateDiffs.
  rewrite !mapParts_shape, !mapParts_originalIndex, mapParts_values,
    mapParts_length.
  repeat split. intro k. apply mapParts_rng.
Qed.

Lemma getCleanText_cons (chunk : DiffChunk) (chunks : list DiffChunk) :
  getCleanText (chunk :: chunks)
  = ((if isRemoved chunk then "" else value chunk)
     ++ getCleanText chunks)%string.
Proof.
  unfold getCleanText, isRemoved. cbn [map]. rewrite join_cons.
  destruct (type chunk); reflexivity.
Qed.

(** X11. [getCleanText] of two sequences put together is the two clean
    texts put together, and removed chunks never contribute: dropping
    them from the sequence leaves the clean text as it is, and a sequence
    of removed chunks only has the empty clean text. *)
Theorem getCleanText_ignores_removed (cs1 cs2 : list DiffChunk) :
  getCleanText (cs1 ++ cs2)
  = (getCleanText cs1 ++ getCleanText cs2)%string
  /\ getCleanText (filter (fun c => negb (isRemoved c)) cs1)
     = getCleanText cs1
  /\ (forallb isRemoved cs1 = true -> getCleanText cs1 = "").
Proof.
  split; [|split].
  - unfold getCleanText. now rewrite map_app, join_app.
  - induction cs1 as [|c cs IH]; [reflexivity|].
    cbn [filter]. rewrite (getCleanText_cons c cs).
    destruct (isRemoved c) eqn:E; cbn [negb].
    + exact IH.
    + now rewrite getCleanText_cons, E, IH.
  - induction cs1 as [|c cs IH]; [reflexivity|].
    cbn [forallb]. intro H. apply andb_true_iff in H. destruct H as [Hc Hcs].
    now rewrite getCleanText_cons, Hc, (IH Hcs).
Qed.

Lemma getCleanText_ignores_removed_witness :
  getCleanText [mkDiffChunk "a" "gone" removed 0;
                mkDiffChunk "b" "too" removed 1] = "".
Proof.
  apply (proj2 (proj2 (getCleanText_ignores_removed
    [mkDiffChunk "a" "gone" removed 0; mkDiffChunk "b" "too" removed 1] []))).
  reflexivity.
Defined.

(* ================================================================== *)
(** ** The redline markup can be read back *)

Lemma string_app_inv_head (p s1 s2 : string) :
  (p ++ s1)%string = (p ++ s2)%string -> s1 = s2.
Proof.
  induction p as [|a p IH]; cbn [append]; intro H; [exact H|].
  injection H as H. now apply IH.
Qed.

Lemma isMarkupChar_plain (a : ascii) :
  isMarkupChar a = false ->
  a <> "&"%char /\ a <> "<"%char /\ a <> ">"%char /\ a <> newline.
Proof.
  unfold isMarkupChar. rewrite !orb_false_iff.
  intros [[[H1 H2] H3] H4].
  repeat split; intro E; subst a; discriminate.
Qed.

(** The image of a character tells the character and where it ends. *)
Lemma escapeChar_app_inj (a b : ascii) (s1 s2 : string) :
  (escapeChar a ++ s1)%string = (escapeChar b ++ s2)%string ->
  a = b /\ s1 = s2.
Proof.
  destruct (escapeChar_cases a)
    as [[Ha Ea]|[[Ha Ea]|[[Ha Ea]|[[Ha Ea]|[Ha Ea]]]]];
  destruct (escapeChar_cases b)
    as [[Hb Eb]|[[Hb Eb]|[[Hb Eb]|[[Hb Eb]|[Hb Eb]]]]];
  rewrite Ea, Eb; cbn [append]; intro H;
  try discriminate H;
  try (subst a b; split; [reflexivity | now injection H]);
  try (apply isMarkupChar_plain in Hb; destruct Hb as [B1 [B2 [B3 B4]]];
       subst a; injection H as Hc _; now subst b);
  try (apply isMarkupChar_plain in Ha; destruct Ha as [A1 [A2 [A3 A4]]];
       subst b; injection H as Hc _; now subst a).
  injection H as -> ->. now split.
Qed.

(** Escaped text that runs up to a closing tag tells the text and what
    follows the tag. *)
Lemma escaped_until_close_inj (v1 : string) :
  forall v2 r1 r2,
    (flatMapString escapeChar v1 ++ closeTag ++ r1)%string
    = (flatMapString escapeChar v2 ++ closeTag ++ r2)%string ->
    v1 = v2 /\ r1 = r2.
Proof.
  induction v1 as [|a v1 IH]; intros [|b v2] r1 r2 H.
  - split; [reflexivity|]. now apply (string_app_inv_head closeTag).
  - exfalso. cbn [flatMapString] in H. fold (flatMapString escapeChar) in H.
    rewrite append_assoc in H. cbn [append closeTag] in H.
    destruct (escapeChar_cases b)
      as [[_ E]|[[_ E]|[[_ E]|[[_ E]|[Hp E]]]]]; rewrite E in H;
      try discriminate H.
    apply isMarkupChar_plain in Hp. destruct Hp as [_ [Hlt _]].
    injection H as Hc _. now elim Hlt.
  - exfalso. cbn [flatMapString] in H. fold (flatMapString escapeChar) in H.
    rewrite append_assoc in H. cbn [append closeTag] in H.
    destruct (escapeChar_cases a)
      as [[_ E]|[[_ E]|[[_ E]|[[_ E]|[Hp E]]]]]; rewrite E in H;
      try discriminate H.
    apply isMarkupChar_plain in Hp. destruct Hp as [_ [Hlt _]].
    injection H as Hc _. now elim Hlt.
  - cbn [flatMapString] in H. fold (flatMapString escapeChar) in H.
    rewrite !append_assoc in H.
    apply escapeChar_app_inj in H. destruct H as [-> H].
    destruct (IH v2 r1 r2 H) as [-> ->]. now split.
Qed.

(** X12. The escaping of [getRedlineHtml] loses nothing: two different
    chunk values never escape to the same text. *)
Theorem escapeText_injective (v1 v2 : string) :
  escapeText v1 = escapeText v2 -> v1 = v2.
Proof.
  rewrite !escapeText_flatMap. intro H.
  apply (escaped_until_close_inj v1 v2 "" "").
  now rewrite H.
Qed.

Lemma escapeText_injective_witness : "a<b" = "a<b".
Proof.
  apply (escapeText_injective "a<b" "a<b"). reflexivity.
Defined.

Lemma openTag_app_inj (t1 t2 : ChangeType) (s1 s2 : string) :
  (openTag t1 ++ s1)%string = (openTag t2 ++ s2)%string ->
  t1 = t2 /\ s1 = s2.
Proof.
  intro H.
  assert (Ht : t1 = t2).
  { destruct t1, t2; try reflexivity; exfalso.
    - apply (f_equal (String.get 32)) in H. vm_compute in H. discriminate H.
    - apply (f_equal (String.get 5)) in H. vm_compute in H. discriminate H.
    - apply (f_equal (String.get 32)) in H. vm_compute in H. discriminate H.
    - apply (f_equal (String.get 5)) in H. vm_compute in H. discriminate H.
    - apply (f_equal (String.get 5)) in H. vm_compute in H. discriminate H.
    - apply (f_equal (String.get 5)) in H. vm_compute in H. discriminate H. }
  subst t2. split; [reflexivity|].
  now apply (string_app_inv_head (openTag t1)).
Qed.

(** X13. The redline markup determines the chunks it was made from: two
    chunk sequences with the same output of [getRedlineHtml] have the
    same length and agree elementwise on [value] and [type], so the
    markup alone tells what was added, removed and kept. *)
Theorem getRedlineHtml_determines_chunks (cs1 : list DiffChunk) :
  forall cs2,
    getRedlineHtml cs1 = getRedlineHtml cs2 -> shape cs1 = shape cs2.
Proof.
  induction cs1 as [|c1 cs1 IH]; intros [|c2 cs2] H.
  - reflexivity.
  - exfalso. rewrite getRedlineHtml_cons, renderChunk_app in H.
    destruct (openTag_shape (type c2)) as [x [E _]]. rewrite E in H.
    discriminate H.
  - exfalso. rewrite getRedlineHtml_cons, renderChunk_app in H.
    destruct (openTag_shape (type c1)) as [x [E _]]. rewrite E in H.
    discriminate H.
  - rewrite !getRedlineHtml_cons, !renderChunk_app in H.
    apply openTag_app_inj in H. destruct H as [Ht H].
    rewrite !escapeText_flatMap in H.
    apply escaped_until_close_inj in H. destruct H as [Hv H].
    unfold shape in *. cbn [map]. now rewrite Ht, Hv, (IH cs2 H).
Qed.

Lemma getRedlineHtml_determines_chunks_witness :
  shape [mkDiffChunk "a1" "x<" added 0; mkDiffChunk "b2" "y" removed 1]
  = shape [mkDiffChunk "zz" "x<" added 7; mkDiffChunk "zz" "y" removed 7].
Proof.
  apply (getRedlineHtml_determines_chunks
    [mkDiffChunk "a1" "x<" added 0; mkDiffChunk "b2" "y" removed 1]
    [mkDiffChunk "zz" "x<" added 7; mkDiffChunk "zz" "y" removed 7]).
  reflexivity.
Defined.

(* ================================================================== *)
(** ** The clean text in the email draft *)

Lemma emailCleanHtml_flatMap (s : string) :
  emailCleanHtml s = flatMapString breakChar s.
Proof. unfold emailCleanHtml. apply replaceAll_single. Qed.

Lemma breakChar_length (a : ascii) :
  String.length (breakChar a) <= String.length (escapeChar a)
  /\ (Ascii.eqb a "&" || Ascii.eqb a "<" || Ascii.eqb a ">" = true ->
      String.length (breakChar a) < String.length (escapeChar a))
  /\ (Ascii.eqb a "&" || Ascii.eqb a "<" || Ascii.eqb a ">" = false ->
      breakChar a = escapeChar a).
Proof.
  unfold breakChar, escapeChar.
  destruct (Ascii.eqb_spec a "&") as [->|N1]; [repeat split; cbn; try lia; discriminate|].
  destruct (Ascii.eqb_spec a "<") as [->|N2]; [repeat split; cbn; try lia; discriminate|].
  destruct (Ascii.eqb_spec a ">") as [->|N3]; [repeat split; cbn; try lia; discriminate|].
  cbn [orb]. split; [apply le_n|]. split; [discriminate | reflexivity].
Qed.

Lemma hasMarkup_cons (a : ascii) (s : string) :
  hasMarkup (String a s)
  = (Ascii.eqb a "&" || Ascii.eqb a "<" || Ascii.eqb a ">") || hasMarkup s.
Proof.
  unfold hasMarkup. cbn [occurs].
  rewrite (Ascii.eqb_sym "&" a), (Ascii.eqb_sym "<" a), (Ascii.eqb_sym ">" a).
  destruct (Ascii.eqb a "&"), (Ascii.eqb a "<"), (Ascii.eqb a ">"),
    (occurs "&" s), (occurs "<" s), (occurs ">" s); reflexivity.
Qed.

Lemma emailCleanHtml_length (s : string) :
  String.length (emailCleanHtml s) <= String.length (escapeText s)
  /\ (hasMarkup s = true ->
      String.length (emailCleanHtml s) < String.length (escapeText s)).
Proof.
  rewrite emailCleanHtml_flatMap, escapeText_flatMap.
  induction s as [|a s [IHle IHlt]]; [split; [apply le_n | discriminate]|].
  cbn [flatMapString]. fold (flatMapString breakChar).
  fold (flatMapString escapeChar).
  rewrite !string_length_app, hasMarkup_cons.
  destruct (breakChar_length a) as [Hle [Hlt _]].
  split; [lia|].
  intro H. apply orb_true_iff in H. destruct H as [H|H].
  - specialize (Hlt H). lia.
  - specialize (IHlt H). lia.
Qed.

Lemma ex_prefix (x rest target : string) :
  (exists pre, rest = (pre ++ target)%string) ->
  exists pre, (x ++ rest)%string = (pre ++ target)%string.
Proof.
  intros [pre ->]. exists (x ++ pre)%string. now rewrite append_assoc.
Qed.

Lemma htmlBody_embeds (cleanText dataUrl explanation : string) :
  exists pre,
    htmlBody dataUrl explanation cleanText
    = (pre ++ emailCleanHtml cleanText ++ htmlBodyTail)%string.
Proof.
  unfold htmlBody, htmlBodyTail.
  repeat (first [ (exists ""; reflexivity) | apply ex_prefix ]).
Qed.

(** X14. The email draft embeds the clean text with its newlines turned
    into line-break markers and nothing else escaped: the embedded text
    equals what [getRedlineHtml] would emit for it exactly when the clean
    text holds none of [&], [<] and [>]; otherwise these characters reach
    the draft's markup as they are.  No raw newline of the clean text
    remains, and in [htmlBody] the embedded text is followed by the
    closing of the draft only. *)
Theorem emailCleanHtml_escapes_newlines_only (cleanText : string) :
  (emailCleanHtml cleanText = escapeText cleanText
   <-> hasMarkup cleanText = false)
  /\ emailCleanHtml cleanText = flatMapString breakChar cleanText
  /\ occurs newline (emailCleanHtml cleanText) = false
  /\ forall dataUrl explanation, exists pre,
       htmlBody dataUrl explanation cleanText
       = (pre ++ emailCleanHtml cleanText ++ htmlBodyTail)%string.
Proof.
  split; [|split; [|split]]; [| | |apply htmlBody_embeds].
  - split.
    + intro E. destruct (hasMarkup cleanText) eqn:Hm; [|reflexivity].
      destruct (emailCleanHtml_length cleanText) as [_ Hlt].
      specialize (Hlt Hm). rewrite E in Hlt. lia.
    + rewrite emailCleanHtml_flatMap, escapeText_flatMap.
      induction cleanText as [|a s IH]; [reflexivity|].
      rewrite hasMarkup_cons. intro H. apply orb_false_iff in H.
      destruct H as [Ha Hs]. cbn [flatMapString].
      fold (flatMapString breakChar). fold (flatMapString escapeChar).
      destruct (breakChar_length a) as [_ [_ Heq]].
      now rewrite (Heq Ha), (IH Hs).
  - apply emailCleanHtml_flatMap.
  - rewrite emailCleanHtml_flatMap.
    induction cleanText as [|a s IH]; [reflexivity|].
    cbn [flatMapString]. fold (flatMapString breakChar).
    rewrite occurs_app, IH, orb_false_r. unfold breakChar.
    destruct (Ascii.eqb_spec a newline) as [->|N]; [reflexivity|].
    cbn [occurs]. rewrite orb_false_r.
    apply Ascii.eqb_neq. congruence.
Qed.
